(** * Verification model of the jackal.nodejs envelope codec, key unwrapping
    and folder handler.

    The async TypeScript code is embedded as programs of a small free monad
    [prog]: every call to something outside this repository (WebCrypto's
    [subtle], [JSON], the [File] constructor, the wallet's ECIES primitive,
    [saveFileTreeEntry], [Date.now]) is a command [Vis c k]; the pure code between the calls is
    written out as Rocq functions.  A handler gives the commands meaning and
    [run] executes a program against it, returning the outcome, the final
    state and the trace of commands issued. *)

From Stdlib Require Import NArith ZArith Ascii Strings.Byte Lia.
From stdpp Require Import base list gmap strings.

Open Scope N_scope.

(* ------------------------------------------------------------------ *)
(** ** Programs with external calls *)

(** Errors raised by the code itself, and rejections of external calls. *)
Inductive err :=
  | ErrInvalidSource              (* stringToAes() : Invalid source string *)
  | ErrSignerNotEnabled           (* signerNotEnabled(...) in getForFiletree *)
  | ErrTypeError (msg : string)   (* a TypeError thrown by the language *)
  | ErrRejected (msg : string).   (* a rejected promise / thrown external call *)

Inductive prog (E : Type) (R : E -> Type) (A : Type) : Type :=
  | Ret (a : A)
  | Throw (e : err)
  | Unmodelled
      (* JavaScript behaviour outside the modelled fragment, or a loop
         that never ends *)
  | Vis (c : E) (k : R c -> prog E R A).

Arguments Ret {E R A} a.
Arguments Throw {E R A} e.
Arguments Unmodelled {E R A}.
Arguments Vis {E R A} c k.

Fixpoint pbind {E R A B} (p : prog E R A) (f : A -> prog E R B) : prog E R B :=
  match p with
  | Ret a => f a
  | Throw e => Throw e
  | Unmodelled => Unmodelled
  | Vis c k => Vis c (fun x => pbind (k x) f)
  end.

Global Instance prog_ret E R : MRet (prog E R) := fun A a => Ret a.
Global Instance prog_bind E R : MBind (prog E R) := fun A B f p => pbind p f.

Definition call {E R} (c : E) : prog E R (R c) := Vis c Ret.

(** [Promise.all(xs.map(f))], run in order. *)
Fixpoint mapM {E R A B} (f : A -> prog E R B) (xs : list A) : prog E R (list B) :=
  match xs with
  | [] => mret []
  | x :: xs' => y ← f x; ys ← mapM f xs'; mret (y :: ys)
  end.

Inductive outcome (A : Type) :=
  | Done (a : A)
  | Raised (e : err)
  | OutOfModel.

Arguments Done {A} a.
Arguments Raised {A} e.
Arguments OutOfModel {A}.

(** A handler answers a command in a state, or rejects it with a message. *)
Fixpoint run {E R S A} (h : forall c : E, S -> (string + R c) * S)
    (p : prog E R A) (s : S) : outcome A * S * list E :=
  match p with
  | Ret a => (Done a, s, [])
  | Throw e => (Raised e, s, [])
  | Unmodelled => (OutOfModel, s, [])
  | Vis c k =>
      let '(r, s1) := h c s in
      match r with
      | inl msg => (Raised (ErrRejected msg), s1, [c])
      | inr x => let '(o, s2, t) := run h (k x) s1 in (o, s2, c :: t)
      end
  end.

(* ------------------------------------------------------------------ *)
(** ** Data of the crypto module (src/unnamed/part_000) *)

Definition bytes := list byte.

Global Instance byte_eq_decision : EqDecision byte := Byte.byte_eq_dec.

Definition byteLength (b : bytes) : N := N.of_nat (length b).

(** An opaque WebCrypto [CryptoKey]; its raw export. *)
Inductive CryptoKey := mkCryptoKey (key_raw : bytes).

(** The metadata record [{ name, lastModified, type, size }]. *)
Record Details := mkDetails {
  d_name : string;
  d_lastModified : N;
  d_type : string;
  d_size : N
}.

(** A DOM [File] given to [convertToEncryptedFile]. *)
Record WorkingFile := mkWorkingFile {
  wf_name : string;
  wf_lastModified : N;
  wf_type : string;
  wf_data : bytes
}.

(** A [File] built by [new File(parts, name, options)];
    [jf_lastModified = None] is the constructor's default (creation time). *)
Record JsFile := mkJsFile {
  jf_bits : list bytes;
  jf_name : string;
  jf_type : string;
  jf_lastModified : option N
}.

(** [IAesBundle]. *)
Record AesBundle := mkAesBundle { aes_iv : bytes; aes_key : CryptoKey }.

(** A JavaScript number: an IEEE-754 double.  A finite double is kept as
    [m * 2 ^ e]; [-0] is not told apart from [+0], as no operation used
    below ([+], [<], [===], [Math.trunc]) distinguishes them there. *)
Inductive number :=
  | NNaN
  | NPosInf
  | NNegInf
  | NFinite (m e : Z).

(** A value produced by [JSON.parse]: strings as their UTF-16 code units,
    objects as their members in source order. *)
#[warnings="-register-all"]
Inductive JsonValue :=
  | JNull
  | JBool (b : bool)
  | JNumber (n : number)
  | JString (s : list N)
  | JArray (xs : list JsonValue)
  | JObject (members : list (list N * JsonValue)).

(** External calls made by the crypto module.  [JsonStringify] stands for
    [Buffer.from(JSON.stringify(details))]; [JsonParse] is
    [JSON.parse(buf.toString())]; [NewFile] is [new File(bits, name, options)]
    with options that are not a literal of this code, which the constructor
    validates (a primitive or an [endings] other than 'transparent' or
    'native' throws) and normalises ([type] is lower-cased or cleared);
    [HashAndHex] is the async digest of utils/hash. *)
Inductive CryptoCall :=
  | SubtleEncrypt (iv : bytes) (key : CryptoKey) (data : bytes)
  | SubtleDecrypt (iv : bytes) (key : CryptoKey) (data : bytes)
  | SubtleImportKey (rawExport : bytes)
  | AsymmetricDecrypt (toDecrypt : string)
  | JsonStringify (details : Details)
  | JsonParse (text : bytes)
  | NewFile (fileBits : list bytes) (fileName : option JsonValue) (options : JsonValue)
  | HashAndHex (input : string)
  | DateNow.

Definition crypto_ret (c : CryptoCall) : Type :=
  match c with
  | SubtleImportKey _ => CryptoKey
  | JsonParse _ => JsonValue
  | NewFile _ _ _ => JsFile
  | HashAndHex _ => string
  | DateNow => N
  | _ => bytes
  end.

Abbreviation CryptoM := (prog CryptoCall crypto_ret).

(** The crypto code keeps no state of its own: its handlers are stateless. *)
Definition crypto_handler := forall c : CryptoCall, string + crypto_ret c.

Definition lift_h (h : crypto_handler)
    : forall c : CryptoCall, unit -> (string + crypto_ret c) * unit :=
  fun c s => (h c, s).

Definition runc {A} (h : crypto_handler) (p : CryptoM A) : outcome A * list CryptoCall :=
  let '(o, _, t) := run (lift_h h) p tt in (o, t).

(* ------------------------------------------------------------------ *)
(** ** aesCrypt *)

(** [String.prototype.toLowerCase] on the 8-bit characters of [string];
    only A-Z can lower-case to a letter of the ASCII literal it is compared
    with, the rest are kept. *)
Definition lower_ascii (c : ascii) : ascii :=
  let n := N_of_ascii c in
  if (65 <=? n) && (n <=? 90) then ascii_of_N (n + 32) else c.

Fixpoint toLowerCase (s : string) : string :=
  match s with
  | EmptyString => EmptyString
  | String c s' => String (lower_ascii c) (toLowerCase s')
  end.

(** [mode?.toLowerCase() === 'encrypt'] ([None] is [undefined]/[null]). *)
Definition mode_is_encrypt (mode : option string) : bool :=
  match mode with
  | Some m => String.eqb (toLowerCase m) "encrypt"
  | None => false
  end.

Definition aesCrypt (data : bytes) (key : CryptoKey) (iv : bytes)
    (mode : option string) : CryptoM bytes :=
  if byteLength data <? 1 then mret []
  else if mode_is_encrypt mode then call (SubtleEncrypt iv key data)
  else call (SubtleDecrypt iv key data).

(* ------------------------------------------------------------------ *)
(** ** stringToAes *)

(** [source.indexOf(c)], [-1] when absent. *)
Fixpoint indexOf (c : ascii) (s : string) : Z :=
  match s with
  | EmptyString => (-1)%Z
  | String x s' =>
      if ascii_dec x c then 0%Z
      else let r := indexOf c s' in if (r <? 0)%Z then r else (r + 1)%Z
  end.

(** [source.split(c)] for a one-character separator. *)
Fixpoint split_on (c : ascii) (s : string) : list string :=
  match s with
  | EmptyString => [EmptyString]
  | String x s' =>
      if ascii_dec x c then EmptyString :: split_on c s'
      else match split_on c s' with
           | h :: t => String x h :: t
           | [] => [String x EmptyString]
           end
  end.

Definition importJackalKey (rawExport : bytes) : CryptoM CryptoKey :=
  call (SubtleImportKey rawExport).

Definition stringToAes (source : string) : CryptoM AesBundle :=
  if (indexOf "|" source <? 0)%Z then Throw ErrInvalidSource
  else
    let parts := split_on "|" source in
    iv ← call (AsymmetricDecrypt (nth 0 parts EmptyString));
    raw ← call (AsymmetricDecrypt (nth 1 parts EmptyString));
    key ← importJackalKey raw;
    mret (mkAesBundle iv key).

(* ------------------------------------------------------------------ *)
(** ** Buffers, decimal headers and [Number] *)

Fixpoint takeN {A} (n : N) (l : list A) : list A :=
  match l with
  | [] => []
  | x :: t => if n =? 0 then [] else x :: takeN (N.pred n) t
  end.

Fixpoint dropN {A} (n : N) (l : list A) : list A :=
  match l with
  | [] => []
  | _ :: t => if n =? 0 then l else dropN (N.pred n) t
  end.

(** [buf.slice(start, end)] (and [Blob.slice]) with non-negative bounds:
    clipped to the buffer, empty when [end <= start]. *)
Definition slice (l : bytes) (start end_ : N) : bytes :=
  takeN (end_ - start) (dropN start l).

(** Decimal digits of [n], most significant first ([n.toString()]). *)
Fixpoint dec_digits_fuel (fuel : nat) (n : N) : list N :=
  match fuel with
  | O => [n]
  | S f => if n <? 10 then [n] else dec_digits_fuel f (n / 10) ++ [n mod 10]
  end.

Definition dec_digits (n : N) : list N := dec_digits_fuel (N.to_nat (N.size n)) n.

Definition digit_byte (d : N) : byte :=
  match Byte.of_N (48 + d) with Some b => b | None => x00 end.

Definition toString_bytes (n : N) : bytes := map digit_byte (dec_digits n).

Definition toString_string (n : N) : string :=
  String.string_of_list_ascii (map (fun d => ascii_of_N (48 + d)) (dec_digits n)).

(** [s.padStart(len, fill)] with a one-character fill. *)
Definition padStart (len : nat) (fill : byte) (s : bytes) : bytes :=
  repeat fill (len - List.length s)%nat ++ s.

(** [Buffer.from((n).toString().padStart(8, '0'))]. *)
Definition header (n : N) : bytes := padStart 8 x30 (toString_bytes n).

(** [Number(buf.toString())]: the buffer is decoded as UTF-8, then read by
    the StringToNumber algorithm of ECMAScript (7.1.4.1.1), into a double. *)

(** The double nearest to [p / q] ([q > 0]), ties to even, with gradual
    underflow and overflow to infinity (IEEE-754 roundTiesToEven).  An
    integer below [2 ^ 53] is a double already and is kept as is. *)
Definition round_binary64 (p q : Z) : number :=
  if (q =? 1)%Z && (Z.abs p <? 2 ^ 53)%Z then NFinite p 0 else
  if (p =? 0)%Z then NFinite 0 0 else
  let a := Z.abs p in
  (* [E] with [2 ^ E <= a / q < 2 ^ (E + 1)] *)
  let E0 := (Z.log2 a - Z.log2 q)%Z in
  let E := if (0 <=? E0)%Z
           then (if (Z.shiftl q E0 <=? a)%Z then E0 else (E0 - 1)%Z)
           else (if (q <=? Z.shiftl a (- E0))%Z then E0 else (E0 - 1)%Z) in
  (* the exponent of the last place: 53 significant bits, or subnormal *)
  let u := Z.max (E - 52) (-1074) in
  let n := if (u <? 0)%Z then Z.shiftl a (- u) else a in
  let d := if (u <? 0)%Z then q else Z.shiftl q u in
  let qt := (n / d)%Z in
  let r := match Z.compare (2 * (n mod d)) d with
           | Lt => qt
           | Gt => (qt + 1)%Z
           | Eq => if Z.odd qt then (qt + 1)%Z else qt
           end in
  if (r =? 0)%Z then NFinite 0 0
  else if (1024 <=? Z.log2 r + u)%Z then (if (p <? 0)%Z then NNegInf else NPosInf)
  else NFinite (if (p <? 0)%Z then (- r)%Z else r) u.

(** The double nearest to [m * 2 ^ e]. *)
Definition round_dyadic (m e : Z) : number :=
  if (0 <=? e)%Z then round_binary64 (Z.shiftl m e) 1
  else round_binary64 m (Z.shiftl 1 (- e)).

(** [x + y] on doubles. *)
Definition num_add (x y : number) : number :=
  match x, y with
  | NNaN, _ | _, NNaN => NNaN
  | NPosInf, NNegInf | NNegInf, NPosInf => NNaN
  | NPosInf, _ | _, NPosInf => NPosInf
  | NNegInf, _ | _, NNegInf => NNegInf
  | NFinite m1 e1, NFinite m2 e2 =>
      let e := Z.min e1 e2 in
      round_dyadic (Z.shiftl m1 (e1 - e) + Z.shiftl m2 (e2 - e)) e
  end.

(** A numeric literal or [length] of this code: an integer below [2 ^ 53]. *)
Definition num_of_N (n : N) : number := NFinite (Z.of_N n) 0.

(** [x < n] for a non-negative integer [n] ([false] on [NaN]). *)
Definition num_lt_N (x : number) (n : N) : bool :=
  match x with
  | NNaN | NPosInf => false
  | NNegInf => true
  | NFinite m e =>
      if (0 <=? e)%Z then (Z.shiftl m e <? Z.of_N n)%Z
      else (m <? Z.shiftl (Z.of_N n) (- e))%Z
  end.

(** [x === 0]. *)
Definition num_is_zero (x : number) : bool :=
  match x with NFinite m _ => (m =? 0)%Z | _ => false end.

(** [Math.trunc] of a finite double. *)
Definition num_trunc (m e : Z) : Z :=
  if (0 <=? e)%Z then Z.shiftl m e else Z.quot m (Z.shiftl 1 (- e)).

(** [adjustOffset(offset, length)] of Node's lib/buffer.js, which
    [Buffer.prototype.slice] applies to both bounds: truncated, negative
    offsets counted from the end and clamped at 0, offsets past the end
    clamped to [length], [NaN] read as 0. *)
Definition adjustOffset (x : number) (len : N) : N :=
  match x with
  | NNaN => 0
  | NPosInf => len
  | NNegInf => 0
  | NFinite m e =>
      let t := num_trunc m e in
      if (t =? 0)%Z then 0
      else if (t <? 0)%Z then
        (let o := (t + Z.of_N len)%Z in if (0 <? o)%Z then Z.to_N o else 0)
      else if (t <? Z.of_N len)%Z then Z.to_N t else len
  end.

(** [buf.slice(start, end)] with numbers as bounds. *)
Definition slice_num (l : bytes) (start end_ : number) : bytes :=
  slice l (adjustOffset start (byteLength l)) (adjustOffset end_ (byteLength l)).

(** [buf.toString()]: the WHATWG UTF-8 decoder, each maximal ill-formed
    subsequence replaced by U+FFFD; the result as code points. *)
Inductive utf8_state :=
  | Utf8Idle
  | Utf8Cont (needed seen : nat) (cp lower upper : N).

Definition utf8_start (b : N) : N + utf8_state :=
  if b <=? 127 then inl b
  else if (194 <=? b) && (b <=? 223) then inr (Utf8Cont 1 0 (N.land b 31) 128 191)
  else if (224 <=? b) && (b <=? 239) then
    inr (Utf8Cont 2 0 (N.land b 15) (if b =? 224 then 160 else 128)
           (if b =? 237 then 159 else 191))
  else if (240 <=? b) && (b <=? 244) then
    inr (Utf8Cont 3 0 (N.land b 7) (if b =? 240 then 144 else 128)
           (if b =? 244 then 143 else 191))
  else inl 65533.

Fixpoint utf8_go (st : utf8_state) (l : list N) : list N :=
  match l with
  | [] => match st with Utf8Idle => [] | _ => [65533] end
  | b :: t =>
      match st with
      | Utf8Idle =>
          match utf8_start b with
          | inl c => c :: utf8_go Utf8Idle t
          | inr st' => utf8_go st' t
          end
      | Utf8Cont needed seen cp lower upper =>
          if (lower <=? b) && (b <=? upper) then
            let cp' := N.lor (N.shiftl cp 6) (N.land b 63) in
            if Nat.eqb (S seen) needed then cp' :: utf8_go Utf8Idle t
            else utf8_go (Utf8Cont needed (S seen) cp' 128 191) t
          else 65533 :: match utf8_start b with
                        | inl c => c :: utf8_go Utf8Idle t
                        | inr st' => utf8_go st' t
                        end
      end
  end.

Definition utf8_decode (l : bytes) : list N := utf8_go Utf8Idle (map Byte.to_N l).

(** StrWhiteSpaceChar: WhiteSpace (TAB, VT, FF, ZWNBSP and the Zs spaces)
    and LineTerminator. *)
Definition is_StrWhiteSpaceChar (c : N) : bool :=
  (c =? 9) || (c =? 10) || (c =? 11) || (c =? 12) || (c =? 13) || (c =? 32)
  || (c =? 160) || (c =? 5760) || ((8192 <=? c) && (c <=? 8202))
  || (c =? 8232) || (c =? 8233) || (c =? 8239) || (c =? 8287)
  || (c =? 12288) || (c =? 65279).

Fixpoint drop_while {A} (p : A -> bool) (l : list A) : list A :=
  match l with
  | x :: t => if p x then drop_while p t else l
  | [] => []
  end.

Definition trim_cps (l : list N) : list N :=
  rev (drop_while is_StrWhiteSpaceChar (rev (drop_while is_StrWhiteSpaceChar l))).

(** The value of a digit in [radix] (letters for 10 to 35). *)
Definition digit_value (radix c : N) : option N :=
  let v := if (48 <=? c) && (c <=? 57) then Some (c - 48)
           else if (97 <=? c) && (c <=? 122) then Some (c - 87)
           else if (65 <=? c) && (c <=? 90) then Some (c - 55)
           else None in
  match v with
  | Some d => if d <? radix then Some d else None
  | None => None
  end.

(** The longest prefix of digits, as values, and the rest. *)
Fixpoint span_digits (radix : N) (l : list N) : list N * list N :=
  match l with
  | c :: t =>
      match digit_value radix c with
      | Some d => let '(ds, r) := span_digits radix t in (d :: ds, r)
      | None => ([], l)
      end
  | [] => ([], [])
  end.

Definition digits_to_N (radix : N) (ds : list N) : N :=
  fold_left (fun acc d => radix * acc + d) ds 0.

(** SignedInteger of an ExponentPart, which must end the literal. *)
Definition parse_SignedInteger (l : list N) : option Z :=
  let '(neg, l') := match l with
                    | c :: t => if c =? 43 then (false, t)
                                else if c =? 45 then (true, t) else (false, l)
                    | [] => (false, l)
                    end in
  match span_digits 10 l' with
  | ((_ :: _) as ds, []) =>
      let v := Z.of_N (digits_to_N 10 ds) in Some (if neg then (- v)%Z else v)
  | _ => None
  end.

(** RoundMVResult of [(-1) ^ neg * ds * 10 ^ k], [ds] a list of decimal
    digits.  At least [10 ^ k] when non-zero, so past the largest double
    when [k > 309]; below [10 ^ (k + length ds)], so under half the least
    subnormal when [k + length ds < -325]. *)
Definition decimal_value (neg : bool) (ds : list N) (k : Z) : number :=
  let D := Z.of_N (digits_to_N 10 ds) in
  let D' := if neg then (- D)%Z else D in
  if (D =? 0)%Z then NFinite 0 0
  else if (309 <? k)%Z then (if neg then NNegInf else NPosInf)
  else if (k + Z.of_nat (length ds) <? -325)%Z then NFinite 0 0
  else if (0 <=? k)%Z then round_binary64 (D' * 10 ^ k)%Z 1
  else round_binary64 D' (10 ^ (- k))%Z.

Definition Infinity_cps : list N := [73; 110; 102; 105; 110; 105; 116; 121].

(** StrUnsignedDecimalLiteral: [Infinity], or digits with an optional
    fraction and exponent, at least one digit before the exponent. *)
Definition parse_StrUnsignedDecimalLiteral (neg : bool) (l : list N) : number :=
  if bool_decide (l = Infinity_cps) then (if neg then NNegInf else NPosInf) else
  let '(ip, r1) := span_digits 10 l in
  let '(fp, r2) := match r1 with
                   | c :: t => if c =? 46 then span_digits 10 t else ([], r1)
                   | [] => ([], [])
                   end in
  match ip, fp with
  | [], [] => NNaN
  | _, _ =>
      let ex := match r2 with
                | [] => Some 0%Z
                | c :: t => if (c =? 101) || (c =? 69) then parse_SignedInteger t else None
                end in
      match ex with
      | Some x => decimal_value neg (ip ++ fp) (x - Z.of_nat (length fp))
      | None => NNaN
      end
  end.

(** The radix of a NonDecimalIntegerLiteral prefix [0b], [0o], [0x]. *)
Definition nondecimal_radix (c : N) : option N :=
  if (c =? 98) || (c =? 66) then Some 2
  else if (c =? 111) || (c =? 79) then Some 8
  else if (c =? 120) || (c =? 88) then Some 16
  else None.

(** StringToNumber: white space trimmed; empty is 0; a non-decimal integer
    literal, or a decimal literal with an optional sign; anything else is
    [NaN]. *)
Definition StringToNumber (s : list N) : number :=
  match trim_cps s with
  | [] => NFinite 0 0
  | c :: r =>
      match (if c =? 48 then match r with x :: _ => nondecimal_radix x | [] => None end
             else None) with
      | Some radix =>
          match span_digits radix (tail r) with
          | ((_ :: _) as ds, []) => round_binary64 (Z.of_N (digits_to_N radix ds)) 1
          | _ => NNaN
          end
      | None =>
          if c =? 43 then parse_StrUnsignedDecimalLiteral false r
          else if c =? 45 then parse_StrUnsignedDecimalLiteral true r
          else parse_StrUnsignedDecimalLiteral false (c :: r)
      end
  end.

Definition Number_of_bytes (l : bytes) : number := StringToNumber (utf8_decode l).

(** Decimal digits, for the facts about headers. *)
Definition is_digit (b : byte) : bool :=
  let n := Byte.to_N b in (48 <=? n) && (n <=? 57).

Definition digits_value (l : bytes) : N :=
  fold_left (fun acc b => 10 * acc + (Byte.to_N b - 48)) l 0.

(* ------------------------------------------------------------------ *)
(** ** convertToEncryptedFile *)

(** [32 * Math.pow(1024, 2)] bytes. *)
Definition chunkSize : N := 32 * 1024 ^ 2.

(** The [for (let i = 0; i < workingFile.size; i += chunkSize)] loop:
    pushes the header and the ciphertext of every chunk.  Each turn
    consumes at least one byte, so [S (length data)] turns suffice. *)
Fixpoint encode_loop (fuel : nat) (data : bytes) (key : CryptoKey) (iv : bytes)
    (i : N) : CryptoM (list bytes) :=
  match fuel with
  | O => Unmodelled
  | S fuel' =>
      if i <? byteLength data then
        let bufChunk := slice data i (i + chunkSize) in
        let hdr := header (byteLength bufChunk + 8) in
        c ← aesCrypt bufChunk key iv (Some "encrypt"%string);
        rest ← encode_loop fuel' data key iv (i + chunkSize);
        mret (hdr :: c :: rest)
      else mret []
  end.

Definition convertToEncryptedFile (workingFile : WorkingFile) (key : CryptoKey)
    (iv : bytes) : CryptoM JsFile :=
  let details := mkDetails (wf_name workingFile) (wf_lastModified workingFile)
                   (wf_type workingFile) (byteLength (wf_data workingFile)) in
  detailsBuf ← call (JsonStringify details);
  let hdr0 := header (byteLength detailsBuf + 8) in
  c0 ← aesCrypt detailsBuf key iv (Some "encrypt"%string);
  rest ← encode_loop (S (List.length (wf_data workingFile)))
           (wf_data workingFile) key iv 0;
  now ← call DateNow;
  finalName ← call (HashAndHex (d_name details +:+ toString_string now));
  mret (mkJsFile (hdr0 :: c0 :: rest) (finalName +:+ ".jkl")
          "text/plain" None).

(** The frames of an envelope given as the list of pushed buffers:
    consecutive (header, ciphertext) pairs. *)
Fixpoint frames_of (parts : list bytes) : list (bytes * bytes) :=
  match parts with
  | h :: c :: rest => (h, c) :: frames_of rest
  | _ => []
  end.

(* ------------------------------------------------------------------ *)
(** ** convertFromEncryptedFile *)

(** The state of the [for (let i = 0; i < source.length; )] walk:
    [i], [detailsBuf] and [bufParts]. *)
Definition walk_state : Type := number * bytes * list bytes.

(** One turn of the walk; [inr] once the loop condition fails.  The value
    of [aesCrypt(segment, ...)] is awaited and dropped, as in the source. *)
Definition decode_step (source : bytes) (key : CryptoKey) (iv : bytes)
    (st : walk_state) : CryptoM (walk_state + (bytes * list bytes)) :=
  let '(i, detailsBuf, bufParts) := st in
  if num_lt_N i (byteLength source) then
    let offset := num_add i (num_of_N 8) in
    let segSize := Number_of_bytes (slice_num source i offset) in
    let last := num_add offset segSize in
    let segment := slice_num source offset last in
    _ ← aesCrypt segment key iv (Some "decrypt"%string);
    if num_is_zero i then mret (inl (last, segment, bufParts))
    else mret (inl (last, detailsBuf, bufParts ++ [segment]))
  else mret (inr (detailsBuf, bufParts)).

(** At most [p] turns of a loop body, stopping early when it is done;
    [inl] when the loop is still running after them. *)
Fixpoint loop_at_most {E R S B} (p : positive) (body : S -> prog E R (S + B)) (s : S)
    : prog E R (S + B) :=
  match p with
  | xH => body s
  | xO p' =>
      r ← loop_at_most p' body s;
      match r with
      | inl s' => loop_at_most p' body s'
      | inr b => mret (inr b)
      end
  | xI p' =>
      r ← body s;
      match r with
      | inl s' =>
          r' ← loop_at_most p' body s';
          match r' with
          | inl s'' => loop_at_most p' body s''
          | inr b => mret (inr b)
          end
      | inr b => mret (inr b)
      end
  end.

(** [n] turns of a loop body, stopping early when it is done. *)
Fixpoint loop_n {E R S B} (n : nat) (body : S -> prog E R (S + B)) (s : S)
    : prog E R (S + B) :=
  match n with
  | O => mret (inl s)
  | S n' =>
      r ← body s;
      match r with
      | inl s' => loop_n n' body s'
      | inr b => mret (inr b)
      end
  end.

(** The next [i] of the walk depends on [i] alone, and the [i] of the turns
    are doubles below [source.length]: fewer than [2 ^ 64] of them.  A walk
    still running after [2 ^ 64] turns has met some [i] twice and never
    ends. *)
Definition walk_bound : positive := (2 ^ 64)%positive.

(** [new File(abArray, details.name, details)]: [details.name] is read
    first; on [null] it throws, on a value other than an object it is
    [undefined] (no array, string, number or boolean has a [name] property,
    own or inherited).  [JSON.parse] keeps the last of repeated keys.  The
    [ArrayBuffer] copies of the segments hold the segments' bytes. *)
Definition name_key : list N := [110; 97; 109; 101].

Fixpoint member_lookup (k : list N) (ms : list (list N * JsonValue)) : option JsonValue :=
  match ms with
  | [] => None
  | (k', v) :: t =>
      match member_lookup k t with
      | Some w => Some w
      | None => if bool_decide (k = k') then Some v else None
      end
  end.

Definition null_name_error : err :=
  ErrTypeError "Cannot read properties of null (reading 'name')".

Definition get_name (details : JsonValue) : CryptoM (option JsonValue) :=
  match details with
  | JNull => Throw null_name_error
  | JObject ms => mret (member_lookup name_key ms)
  | _ => mret None
  end.

Definition convertFromEncryptedFile (source : bytes) (key : CryptoKey) (iv : bytes)
    : CryptoM JsFile :=
  r ← loop_at_most walk_bound (decode_step source key iv) (num_of_N 0, [], []);
  match r with
  | inl _ => Unmodelled
  | inr (detailsBuf, bufParts) =>
      details ← call (JsonParse detailsBuf);
      name ← get_name details;
      call (NewFile bufParts name details) : CryptoM JsFile
  end.

(* ------------------------------------------------------------------ *)
(** ** FolderHandler (src/src/classes/folderHandler.ts)

    The handler object owns one mutable [folderDetails] record; it is the
    state of the folder programs, read with [FGet] and replaced with [FPut].
    [saveFileTreeEntry] (utils/compression) builds the change record; it is
    external and may reject.  [stripper] (utils/misc) is external too. *)
Section FolderModel.

Context {FileMeta EncodeObject : Type}.
Variable stripper : string -> string.

(** [IFolderFileFrame]. *)
Record FolderFileFrame := mkFrame {
  whoAmI : string;
  whereAmI : string;
  whoOwnsMe : string;
  dirChildren : list string;
  fileChildren : gmap string FileMeta
}.

Definition set_dirChildren (d : FolderFileFrame) (l : list string) : FolderFileFrame :=
  mkFrame (whoAmI d) (whereAmI d) (whoOwnsMe d) l (fileChildren d).

Definition set_fileChildren (d : FolderFileFrame) (m : gmap string FileMeta)
    : FolderFileFrame :=
  mkFrame (whoAmI d) (whereAmI d) (whoOwnsMe d) (dirChildren d) m.

(** [IChildDirInfo]. *)
Record ChildDirInfo := mkChildDirInfo {
  myName : string;
  myParent : string;
  myOwner : string
}.

(** The parts of [IWalletHandler] the folder code reads. *)
Record WalletRef := mkWalletRef {
  wr_traits : bool;          (* walletRef.traits is not null *)
  wr_address : string        (* walletRef.getJackalAddress() *)
}.

Inductive FolderCall :=
  | FGet
  | FPut (d : FolderFileFrame)
  | SaveFileTreeEntry (address where_ who : string) (d : FolderFileFrame).

Definition folder_ret (c : FolderCall) : Type :=
  match c with
  | FGet => FolderFileFrame
  | FPut _ => unit
  | SaveFileTreeEntry _ _ _ _ => EncodeObject
  end.

Definition folder_handler
    (save : string -> string -> string -> FolderFileFrame -> string + EncodeObject)
    : forall c : FolderCall, FolderFileFrame -> (string + folder_ret c) * FolderFileFrame :=
  fun c s =>
    match c return (string + folder_ret c) * FolderFileFrame with
    | FGet => (inr s, s)
    | FPut d => (inr tt, d)
    | SaveFileTreeEntry a w n d => (save a w n d, s)
    end.

(** [array.includes(x)]. *)
Definition includes (l : list string) (x : string) : bool :=
  existsb (String.eqb x) l.

(** [[...new Set(l)]]: first occurrences, in order. *)
Fixpoint dedup_from (seen : list string) (l : list string) : list string :=
  match l with
  | [] => []
  | x :: t => if includes seen x then dedup_from seen t
              else x :: dedup_from (seen ++ [x]) t
  end.

Definition new_Set (l : list string) : list string := dedup_from [] l.

Definition trackNewFolder (dirInfo : ChildDirInfo) : FolderFileFrame :=
  mkFrame (stripper (myName dirInfo)) (myParent dirInfo) (myOwner dirInfo) [] ∅.

Definition makeChildDirInfo (d : FolderFileFrame) (childName : string) : ChildDirInfo :=
  mkChildDirInfo (stripper childName) (whereAmI d +:+ "/" +:+ whoAmI d) (whoOwnsMe d).

(** [handler.getForFiletree(walletRef)] for the handler tracking [d]. *)
Definition getForFiletree (walletRef : WalletRef) (d : FolderFileFrame)
    : prog FolderCall folder_ret EncodeObject :=
  if wr_traits walletRef
  then call (SaveFileTreeEntry (wr_address walletRef) (whereAmI d) (whoAmI d) d)
  else Throw ErrSignerNotEnabled.

(** [this.getForFiletree(walletRef)]. *)
Definition getForFiletree_this (walletRef : WalletRef)
    : prog FolderCall folder_ret EncodeObject :=
  d ← call FGet; getForFiletree walletRef d.

Definition addChildDirs (childNames : list string) (walletRef : WalletRef)
    : prog FolderCall folder_ret (list EncodeObject * list string) :=
  d ← call FGet;
  let existing := List.filter (fun name => includes (dirChildren d) name) childNames in
  let more := List.filter (fun name => negb (includes (dirChildren d) name)) childNames in
  let handlers := map (fun name => trackNewFolder (makeChildDirInfo d name)) more in
  encoded ← mapM (getForFiletree walletRef) handlers;
  if (0 <? List.length more)%nat then
    d' ← call FGet;
    _ ← call (FPut (set_dirChildren d' (new_Set (dirChildren d' ++ more))));
    me ← getForFiletree_this walletRef;
    mret (encoded ++ [me], existing)
  else mret (encoded, existing).

Definition addChildFileReferences (newFiles : gmap string FileMeta)
    (walletRef : WalletRef) : prog FolderCall folder_ret EncodeObject :=
  d ← call FGet;
  _ ← call (FPut (set_fileChildren d (newFiles ∪ fileChildren d)));
  getForFiletree_this walletRef.

Definition removeChildDirReferences (toRemove : list string) (walletRef : WalletRef)
    : prog FolderCall folder_ret EncodeObject :=
  d ← call FGet;
  _ ← call (FPut (set_dirChildren d
         (List.filter (fun saved => negb (includes toRemove saved)) (dirChildren d))));
  getForFiletree_this walletRef.

(** [for (...) delete this.folderDetails.fileChildren[toRemove[i]]]. *)
Definition delete_all (toRemove : list string) (m : gmap string FileMeta)
    : gmap string FileMeta :=
  fold_left (fun acc k => delete k acc) toRemove m.

Definition removeChildFileReferences (toRemove : list string) (walletRef : WalletRef)
    : prog FolderCall folder_ret EncodeObject :=
  d ← call FGet;
  _ ← call (FPut (set_fileChildren d (delete_all toRemove (fileChildren d))));
  getForFiletree_this walletRef.

Definition removeChildDirAndFileReferences (dirs files : list string)
    (walletRef : WalletRef) : prog FolderCall folder_ret EncodeObject :=
  d ← call FGet;
  _ ← call (FPut (set_dirChildren d
         (List.filter (fun saved => negb (includes dirs saved)) (dirChildren d))));
  d' ← call FGet;
  _ ← call (FPut (set_fileChildren d' (delete_all files (fileChildren d'))));
  getForFiletree_this walletRef.

(** [getMyPath()]. *)
Definition getMyPath (d : FolderFileFrame) : string := whereAmI d +:+ "/" +:+ whoAmI d.

(** The five mutating methods of [FolderHandler], with their arguments. *)
Inductive FolderOp :=
  | OpAddChildDirs (childNames : list string)
  | OpAddChildFileReferences (newFiles : gmap string FileMeta)
  | OpRemoveChildDirReferences (toRemove : list string)
  | OpRemoveChildFileReferences (toRemove : list string)
  | OpRemoveChildDirAndFileReferences (dirs files : list string).

(** Runs one method on the handler whose record is [s]; the final record
    and the calls issued, whatever the outcome. *)
Definition op_run
    (save : string -> string -> string -> FolderFileFrame -> string + EncodeObject)
    (walletRef : WalletRef) (op : FolderOp) (s : FolderFileFrame)
    : FolderFileFrame * list FolderCall :=
  let h := folder_handler save in
  match op with
  | OpAddChildDirs names =>
      let '(_, s', t) := run h (addChildDirs names walletRef) s in (s', t)
  | OpAddChildFileReferences m =>
      let '(_, s', t) := run h (addChildFileReferences m walletRef) s in (s', t)
  | OpRemoveChildDirReferences l =>
      let '(_, s', t) := run h (removeChildDirReferences l walletRef) s in (s', t)
  | OpRemoveChildFileReferences l =>
      let '(_, s', t) := run h (removeChildFileReferences l walletRef) s in (s', t)
  | OpRemoveChildDirAndFileReferences ds fs =>
      let '(_, s', t) := run h (removeChildDirAndFileReferences ds fs walletRef) s in (s', t)
  end.

(** The identity fields of a folder record. *)
Definition ident (d : FolderFileFrame) : string * string * string :=
  (whoAmI d, whereAmI d, whoOwnsMe d).

(** A change record, if any, is built from a node owned by [owner]. *)
Definition saves_owned_by (owner : string) (c : FolderCall) : Prop :=
  match c with
  | SaveFileTreeEntry _ _ _ d => whoOwnsMe d = owner
  | _ => True
  end.

(** A folder program that, run on a record with identity [i], writes back
    only records with identity [i] and builds change records only from
    nodes owned by the owner of [i]. *)
Inductive keeps_ident {A} (i : string * string * string)
    : prog FolderCall folder_ret A -> Prop :=
  | ki_ret a : keeps_ident i (Ret a)
  | ki_throw e : keeps_ident i (Throw e)
  | ki_unmodelled : keeps_ident i Unmodelled
  | ki_get (k : FolderFileFrame -> prog FolderCall folder_ret A) :
      (forall d, ident d = i -> keeps_ident i (k d)) -> keeps_ident i (Vis FGet k)
  | ki_put d (k : unit -> prog FolderCall folder_ret A) :
      ident d = i -> keeps_ident i (k tt) -> keeps_ident i (Vis (FPut d) k)
  | ki_save a w n d (k : EncodeObject -> prog FolderCall folder_ret A) :
      whoOwnsMe d = i.2 -> (forall x, keeps_ident i (k x)) ->
      keeps_ident i (Vis (SaveFileTreeEntry a w n d) k).

End FolderModel.

(* ------------------------------------------------------------------ *)
(** ** A concrete handler for evaluation

    [toy_handler] is a stand-in for the external calls, used only to run
    the code on concrete inputs.  Its cipher has the interface properties
    of AES-GCM that the proofs rely on: encryption appends a 16-byte tag,
    decryption checks and strips it and rejects anything else.  [JSON.parse]
    accepts any text and returns the object [{ name: text }], so the output
    shows which bytes were parsed; the [File] constructor keeps the name
    when it is a string and takes the bits as given. *)
Definition toy_tag : bytes := repeat x20 16.

Definition toy_decrypt (data : bytes) : string + bytes :=
  let n := List.length data in
  if (16 <=? n)%nat && bool_decide (drop (n - 16)%nat data = toy_tag)
  then inr (take (n - 16)%nat data)
  else inl "OperationError"%string.

Definition toy_handler : crypto_handler := fun c =>
  match c return string + crypto_ret c with
  | SubtleEncrypt _ _ data => inr (data ++ toy_tag)
  | SubtleDecrypt _ _ data => toy_decrypt data
  | SubtleImportKey raw => inr (mkCryptoKey raw)
  | AsymmetricDecrypt s => inr (String.list_byte_of_string s)
  | JsonStringify d => inr (String.list_byte_of_string (d_name d))
  | JsonParse text => inr (JObject [(name_key, JString (map Byte.to_N text))])
  | NewFile bits name _ =>
      inr (mkJsFile bits
             (match name with
              | Some (JString s) => String.string_of_list_ascii (map ascii_of_N s)
              | _ => ""
              end) "" None)
  | HashAndHex s => inr s
  | DateNow => inr 0
  end.

Definition toy_key : CryptoKey := mkCryptoKey (repeat x01 32).
Definition toy_iv : bytes := repeat x02 16.

Definition toy_frame (plain : bytes) : bytes :=
  let c := plain ++ toy_tag in header (byteLength c) ++ c.
Definition meta_plain : bytes := String.list_byte_of_string "{}".
Definition body_plain : bytes := String.list_byte_of_string "hi".
Definition env_ok : bytes := toy_frame meta_plain ++ toy_frame body_plain.
(** The properties of WebCrypto AES-GCM under one key and iv that the
    proofs use: a non-empty buffer encrypts to a ciphertext 16 bytes (the
    default 128-bit tag) longer, which decrypts back to it. *)
Definition aes_gcm_laws (h : crypto_handler) (key : CryptoKey) (iv : bytes) : Prop :=
  forall d : bytes, d <> [] ->
    exists c, h (SubtleEncrypt iv key d) = inr c
      /\ List.length c = (List.length d + 16)%nat
      /\ h (SubtleDecrypt iv key c) = inr d.



(* ------------------------------------------------------------------ *)
(** ** aesToString and cryptString *)

(** One hex digit, lower case ([buf.toString('hex')]). *)
Definition hex_char (n : N) : ascii :=
  if n <? 10 then ascii_of_N (48 + n) else ascii_of_N (87 + n).

(** [buf.toString('hex')]: two hex digits per byte. *)
Fixpoint to_hex (b : bytes) : string :=
  match b with
  | [] => EmptyString
  | x :: t =>
      let n := Byte.to_N x in
      String (hex_char (n / 16)) (String (hex_char (n mod 16)) (to_hex t))
  end.

Definition hex_value (c : ascii) : option N :=
  let n := N_of_ascii c in
  if (48 <=? n) && (n <=? 57) then Some (n - 48)
  else if (97 <=? n) && (n <=? 102) then Some (n - 87)
  else if (65 <=? n) && (n <=? 70) then Some (n - 55)
  else None.

(** [Buffer.from(s, 'hex')]: pairs of hex digits, up to the first pair that
    is not one; an odd last digit is dropped. *)
Fixpoint of_hex (s : string) : bytes :=
  match s with
  | String a (String b rest) =>
      match hex_value a, hex_value b with
      | Some x, Some y =>
          match Byte.of_N (16 * x + y) with
          | Some v => v :: of_hex rest
          | None => []
          end
      | _, _ => []
      end
  | _ => []
  end.

(** The external calls of [aesToString]. *)
Inductive WrapCall :=
  | EciesEncrypt (pubKey : string) (data : bytes)   (* eciesjs encrypt(pubKey, data) *)
  | SubtleExportKey (key : CryptoKey).             (* subtle.exportKey('raw', key) *)

Definition wrap_ret (c : WrapCall) : Type :=
  match c with
  | EciesEncrypt _ _ => bytes
  | SubtleExportKey _ => bytes
  end.

Abbreviation WrapM := (prog WrapCall wrap_ret).

Definition runw {A} (h : forall c : WrapCall, string + wrap_ret c) (p : WrapM A)
    : outcome A * list WrapCall :=
  let '(o, _, t) := run (fun c (s : unit) => (h c, s)) p tt in (o, t).

(** [walletRef.asymmetricEncrypt(toEncrypt, pubKey)]
    (src/src/classes/walletHandler.ts). *)
Definition asymmetricEncrypt (toEncrypt : bytes) (pubKey : string) : WrapM string :=
  c ← call (EciesEncrypt pubKey toEncrypt);
  mret (to_hex c).

Definition exportJackalKey (key : CryptoKey) : WrapM bytes :=
  call (SubtleExportKey key).

Definition aesToString (pubKey : string) (aes : AesBundle) : WrapM string :=
  theIv ← asymmetricEncrypt (aes_iv aes) pubKey;
  key ← exportJackalKey (aes_key aes);
  theKey ← asymmetricEncrypt key pubKey;
  mret (theIv +:+ "|" +:+ theKey).

Section CryptString.

(** Node's [Buffer] string codecs. *)
Variable utf8_encode : string -> bytes.    (* Buffer.from(input) *)
Variable base64_encode : bytes -> string.  (* result.toString('base64') *)
Variable base64_decode : string -> bytes.  (* Buffer.from(input, 'base64') *)
Variable utf8_decode : bytes -> string.    (* result.toString('utf-8') *)

(** [cryptString]; the [throw] inside the async function is a rejected
    promise with its message. *)
Definition cryptString (input : string) (key : CryptoKey) (iv : bytes) (mode : string)
    : CryptoM string :=
  if String.eqb mode "encrypt" then
    result ← aesCrypt (utf8_encode input) key iv (Some mode);
    mret (base64_encode result)
  else if String.eqb mode "decrypt" then
    result ← aesCrypt (base64_decode input) key iv (Some mode);
    mret (utf8_decode result)
  else Throw (ErrRejected "cryptString() - Invalid Mode!").

End CryptString.

(** A wallet for evaluation: [asymmetricDecrypt] hex-decodes, and the
    stand-in ECIES cipher is the identity. *)
Definition toy_wallet_handler : crypto_handler := fun c =>
  match c return string + crypto_ret c with
  | AsymmetricDecrypt s => inr (of_hex s)
  | c' => toy_handler c'
  end.

Definition toy_wrap_handler (c : WrapCall) : string + wrap_ret c :=
  match c return string + wrap_ret c with
  | EciesEncrypt _ d => inr d
  | SubtleExportKey (mkCryptoKey raw) => inr raw
  end.

(** An envelope as [convertFromEncryptedFile] reads it: each ciphertext
    behind the decimal of its length. *)
Definition envelope (cts : list bytes) : bytes :=
  mjoin (map (fun ct => header (byteLength ct) ++ ct) cts).

(* ------------------------------------------------------------------ *)
(** ** Generic facts about [run] *)

Lemma bind_pbind {E R A B} (p : prog E R A) (f : A -> prog E R B) :
  (x ← p; f x) = pbind p f.
Proof. reflexivity. Qed.

Lemma run_pbind {E R S A B} (h : forall c : E, S -> (string + R c) * S)
    (p : prog E R A) (f : A -> prog E R B) (s : S) :
  run h (pbind p f) s =
    match run h p s with
    | (Done a, s1, t1) => let '(o, s2, t2) := run h (f a) s1 in (o, s2, t1 ++ t2)
    | (Raised e, s1, t1) => (Raised e, s1, t1)
    | (OutOfModel, s1, t1) => (OutOfModel, s1, t1)
    end.
Proof.
  revert s. induction p as [a|e| |c k IH]; intros s; simpl.
  - destruct (run h (f a) s) as [[o s2] t2]. reflexivity.
  - reflexivity.
  - reflexivity.
  - destruct (h c s) as [[msg|x] s1]; [reflexivity|].
    rewrite IH. destruct (run h (k x) s1) as [[[a|e|] s2] t2]; simpl.
    + destruct (run h (f a) s2) as [[o s3] t3]. by rewrite app_comm_cons.
    + reflexivity.
    + reflexivity.
Qed.

(** Every command a program may issue satisfies [P], and the program has
    no [throw] of its own. *)
Inductive calls_only {E R A} (P : E -> Prop) : prog E R A -> Prop :=
  | co_ret a : calls_only P (Ret a)
  | co_unmodelled : calls_only P Unmodelled
  | co_vis c k : P c -> (forall x, calls_only P (k x)) -> calls_only P (Vis c k).


(** In such a program, an error is always the rejection of the last
    command issued. *)
Lemma calls_only_raised {E R S A} (P : E -> Prop)
    (h : forall c : E, S -> (string + R c) * S) (p : prog E R A) s e s' t :
  calls_only P p -> run h p s = (Raised e, s', t) ->
  exists c msg, e = ErrRejected msg /\ last t = Some c /\ P c.
Proof.
  intros Hp. revert s t. induction Hp as [a| |c k Hc Hk IH]; intros s t Hrun;
    simpl in Hrun; try discriminate.
  destruct (h c s) as [[msg|x] s1].
  - injection Hrun as <- <- <-. exists c, msg. auto.
  - destruct (run h (k x) s1) as [[o s2] t2] eqn:Hk'.
    cbn beta iota zeta in Hrun. injection Hrun as -> -> <-.
    destruct (IH x s1 t2 Hk') as (c' & msg & -> & Hl & HP).
    exists c', msg. split; [done|]. split; [|done].
    destruct t2 as [|y t2]; [discriminate|]. by rewrite last_cons_cons.
Qed.

Lemma toy_aes_gcm_laws key iv : aes_gcm_laws toy_handler key iv.
Proof.
  intros d Hd. exists (d ++ toy_tag). split; [done|].
  rewrite length_app. split; [done|].
  simpl. unfold toy_decrypt. rewrite length_app.
  replace (List.length d + List.length toy_tag - 16)%nat with (List.length d)
    by (simpl; lia).
  rewrite drop_app_length, take_app_length.
  rewrite bool_decide_eq_true_2 by done.
  replace (16 <=? List.length d + List.length toy_tag)%nat with true
    by (symmetry; apply Nat.leb_le; simpl; lia).
  done.
Qed.

Definition frame_ok (fr : bytes * bytes) : Prop :=
  let '(hdr, ct) := fr in 16 <= byteLength ct /\ hdr = header (byteLength ct - 8).

Lemma byteLength_nonempty_ltb (d : bytes) : d <> [] -> (byteLength d <? 1) = false.
Proof.
  intros Hd. apply N.ltb_ge. unfold byteLength.
  destruct d; [done|]. simpl. lia.
Qed.

(* ------------------------------------------------------------------ *)
(** ** Claims on aesCrypt *)

(** C8: for every key, iv and mode, [aesCrypt] on an empty buffer returns an
    empty buffer and issues no call at all, so neither direction invokes the
    cipher. *)
Theorem aesCrypt_empty_no_cipher (key : CryptoKey) (iv : bytes) (mode : option string) :
  aesCrypt [] key iv mode = Ret [].
Proof. reflexivity. Qed.

(** C10: on a non-empty buffer, any mode whose lower-cased form is not
    ["encrypt"] (any other string, or no mode) takes the decrypt branch: the
    program is exactly one [subtle.decrypt] call, with no invalid-mode
    error. *)
Theorem aesCrypt_other_mode_decrypts (data : bytes) (key : CryptoKey) (iv : bytes)
    (mode : option string) :
  data <> [] -> mode_is_encrypt mode = false ->
  aesCrypt data key iv mode = Vis (SubtleDecrypt iv key data) Ret.
Proof.
  intros Hd Hm. unfold aesCrypt. rewrite byteLength_nonempty_ltb by done.
  by rewrite Hm.
Qed.

Lemma aesCrypt_other_mode_decrypts_witness :
  [x41] <> [] /\ mode_is_encrypt (Some "Encrpyt"%string) = false /\
  aesCrypt [x41] toy_key toy_iv (Some "Encrpyt"%string)
    = Vis (SubtleDecrypt toy_iv toy_key [x41]) Ret.
Proof.
  split; [done|]. split; [reflexivity|].
  apply aesCrypt_other_mode_decrypts; [done | reflexivity].
Defined.

(** C4: under a cipher with the AES-GCM laws for [key] and [iv], decrypting
    the encryption of any buffer [b] returns [b]; for the empty buffer both
    steps short-circuit. *)
Theorem aesCrypt_roundtrip (h : crypto_handler) (key : CryptoKey) (iv b : bytes) :
  aes_gcm_laws h key iv ->
  fst (runc h (c ← aesCrypt b key iv (Some "encrypt"%string);
               aesCrypt c key iv (Some "decrypt"%string))) = Done b.
Proof.
  intros Hgcm. destruct b as [|x b]; [reflexivity|].
  destruct (Hgcm (x :: b)) as (c & Henc & Hlen & Hdec); [done|].
  assert (Hc : c <> []) by (intros ->; simpl in Hlen; lia).
  unfold runc. rewrite bind_pbind.
  unfold aesCrypt at 1. rewrite byteLength_nonempty_ltb by done. simpl.
  rewrite Henc. unfold aesCrypt.
  rewrite byteLength_nonempty_ltb by done. simpl. rewrite Hdec. reflexivity.
Qed.

Lemma aesCrypt_roundtrip_witness :
  aes_gcm_laws toy_handler toy_key toy_iv /\
  fst (runc toy_handler (c ← aesCrypt [x41; x42] toy_key toy_iv (Some "encrypt"%string);
                         aesCrypt c toy_key toy_iv (Some "decrypt"%string)))
    = Done [x41; x42].
Proof.
  split; [apply toy_aes_gcm_laws|].
  apply aesCrypt_roundtrip. apply toy_aes_gcm_laws.
Defined.

(* ------------------------------------------------------------------ *)
(** ** Claims on stringToAes *)

Lemma indexOf_app_found (c : ascii) (a b : string) :
  (indexOf c a < 0)%Z -> (0 <= indexOf c (a +:+ String c b))%Z.
Proof.
  induction a as [|x a IH]; simpl; intros Ha.
  - destruct (ascii_dec c c); [lia | done].
  - destruct (ascii_dec x c); [lia|].
    destruct (indexOf c a <? 0)%Z eqn:Hr; [|lia].
    apply Z.ltb_lt in Hr. specialize (IH Hr).
    destruct (indexOf c (a +:+ String c b) <? 0)%Z eqn:Hr'; [apply Z.ltb_lt in Hr'|]; lia.
Qed.

Lemma split_on_app_found (c : ascii) (a b : string) :
  (indexOf c a < 0)%Z -> split_on c (a +:+ String c b) = a :: split_on c b.
Proof.
  induction a as [|x a IH]; simpl; intros Ha.
  - by destruct (ascii_dec c c).
  - destruct (ascii_dec x c); [lia|].
    destruct (indexOf c a <? 0)%Z eqn:Hr; [|lia].
    apply Z.ltb_lt in Hr. by rewrite IH.
Qed.

(** C7 (amended): [stringToAes] fails with the invalid-source error
    (MalformedGrant) exactly when the string has no ['|']; otherwise it
    decrypts the text before the first ['|'] as the iv and the text between
    the first and the second ['|'] (or the end) as the raw key, then imports
    that key; text after a second ['|'] is not used. *)
Theorem stringToAes_fields (h : crypto_handler) (source : string) :
  (fst (runc h (stringToAes source)) = Raised ErrInvalidSource
     <-> (indexOf "|" source < 0)%Z)
  /\ (forall a b : string,
        source = a +:+ String "|" b -> (indexOf "|" a < 0)%Z ->
        stringToAes source =
          Vis (AsymmetricDecrypt a) (fun iv =>
          Vis (AsymmetricDecrypt (nth 0 (split_on "|" b) EmptyString)) (fun raw =>
          Vis (SubtleImportKey raw) (fun key => Ret (mkAesBundle iv key))))).
Proof.
  split.
  - unfold stringToAes. destruct (indexOf "|" source <? 0)%Z eqn:Hi.
    + apply Z.ltb_lt in Hi. split; [done | reflexivity].
    + apply Z.ltb_ge in Hi. split; [|lia]. unfold runc. simpl.
      destruct (h (AsymmetricDecrypt _)) as [m1|iv]; [simpl; discriminate|].
      simpl. destruct (h (AsymmetricDecrypt _)) as [m2|raw]; [simpl; discriminate|].
      simpl. destruct (h (SubtleImportKey raw)) as [m3|key]; simpl; discriminate.
  - intros a b -> Ha. unfold stringToAes.
    pose proof (indexOf_app_found "|" a b Ha) as Hi.
    replace (indexOf "|" (a +:+ String "|" b) <? 0)%Z with false
      by (symmetry; apply Z.ltb_ge; lia).
    rewrite split_on_app_found by done. reflexivity.
Qed.

Lemma stringToAes_fields_witness :
  "ab|cd|ef"%string = ("ab" +:+ String "|" "cd|ef")%string /\
  (indexOf "|" "ab" < 0)%Z /\
  stringToAes "ab|cd|ef" =
    Vis (AsymmetricDecrypt "ab") (fun iv =>
    Vis (AsymmetricDecrypt "cd") (fun raw =>
    Vis (SubtleImportKey raw) (fun key => Ret (mkAesBundle iv key)))).
Proof.
  split; [reflexivity|]. split; [vm_compute; reflexivity|].
  exact (proj2 (stringToAes_fields toy_handler "ab|cd|ef") "ab" "cd|ef"
           eq_refl eq_refl).
Defined.

(** C7 counterexample: with two delimiters, the second decrypted field is
    ["bb"], not the text after the first delimiter ["bb|cc"]. *)
Lemma stringToAes_second_pipe_counterexample :
  stringToAes "aa|bb|cc" =
    Vis (AsymmetricDecrypt "aa") (fun iv =>
    Vis (AsymmetricDecrypt "bb") (fun raw =>
    Vis (SubtleImportKey raw) (fun key => Ret (mkAesBundle iv key))))
  /\ "bb"%string <> "bb|cc"%string.
Proof. split; [reflexivity | discriminate]. Qed.

(* ------------------------------------------------------------------ *)
(** ** Decimal headers *)

Ltac nbool :=
  repeat match goal with
  | H : (_ <=? _) = true |- _ => apply N.leb_le in H
  | H : (_ <=? _) = false |- _ => apply N.leb_gt in H
  | H : (_ =? _) = true |- _ => apply N.eqb_eq in H
  | H : (_ =? _) = false |- _ => apply N.eqb_neq in H
  | H : (_ <? _) = true |- _ => apply N.ltb_lt in H
  | H : (_ <? _) = false |- _ => apply N.ltb_ge in H
  end.

Definition digits_val (ds : list N) : N := fold_left (fun acc d => 10 * acc + d) ds 0.

Lemma fold_digits_app (ds : list N) (d acc : N) :
  fold_left (fun acc d => 10 * acc + d) (ds ++ [d]) acc
  = 10 * fold_left (fun acc d => 10 * acc + d) ds acc + d.
Proof. by rewrite fold_left_app. Qed.

Lemma dec_digits_fuel_spec (f : nat) (n : N) :
  n < 10 ^ N.of_nat f ->
  Forall (fun d => d < 10) (dec_digits_fuel f n) /\
  digits_val (dec_digits_fuel f n) = n /\
  dec_digits_fuel f n <> [].
Proof.
  revert n. induction f as [|f IH]; intros n Hn; simpl.
  - change (10 ^ N.of_nat 0) with 1 in Hn.
    split; [apply Forall_singleton; lia | split; [unfold digits_val; simpl; lia | done]].
  - destruct (n <? 10) eqn:H10; nbool.
    + split; [apply Forall_singleton; lia | split; [unfold digits_val; simpl; lia | done]].
    + assert (Hd : n / 10 < 10 ^ N.of_nat f).
      { apply N.Div0.div_lt_upper_bound.
        rewrite Nat2N.inj_succ, N.pow_succ_r' in Hn. lia. }
      destruct (IH (n / 10) Hd) as (Hf & Hv & _).
      split; [|split].
      * apply Forall_app. split; [done|]. apply Forall_singleton.
        apply N.mod_lt. lia.
      * unfold digits_val in *. rewrite fold_digits_app, Hv.
        pose proof (N.div_mod n 10). lia.
      * intros Happ. apply app_eq_nil in Happ. destruct Happ as [_ Hc]. done.
Qed.

Lemma dec_digits_fuel_length (f : nat) (n : N) (k : nat) :
  n < 10 ^ N.of_nat k -> (List.length (dec_digits_fuel f n) <= Nat.max 1 k)%nat.
Proof.
  revert n k. induction f as [|f IH]; intros n k Hn; simpl; [lia|].
  destruct (n <? 10) eqn:H10; nbool; simpl; [lia|].
  destruct k as [|[|k]].
  - change (10 ^ N.of_nat 0) with 1 in Hn. lia.
  - change (10 ^ N.of_nat 1) with 10 in Hn. lia.
  - assert (Hd : n / 10 < 10 ^ N.of_nat (S k)).
    { apply N.Div0.div_lt_upper_bound.
      rewrite (Nat2N.inj_succ (S k)), N.pow_succ_r' in Hn. lia. }
    specialize (IH (n / 10) (S k) Hd). rewrite length_app. simpl. lia.
Qed.

Lemma dec_digits_spec (n : N) :
  Forall (fun d => d < 10) (dec_digits n) /\ digits_val (dec_digits n) = n /\
  dec_digits n <> [].
Proof.
  apply dec_digits_fuel_spec. rewrite N2Nat.id.
  pose proof (N.size_gt n) as Hs.
  assert (2 ^ N.size n <= 10 ^ N.size n) by (apply N.pow_le_mono_l; lia). lia.
Qed.

Lemma digit_byte_to_N (d : N) : d < 10 -> Byte.to_N (digit_byte d) = 48 + d.
Proof.
  intros Hd. unfold digit_byte. destruct (Byte.of_N (48 + d)) as [b|] eqn:E.
  - by apply Byte.to_of_N in E.
  - apply Byte.of_N_None_iff in E. lia.
Qed.

Lemma header_digits (n : N) : Forall (fun b => is_digit b = true) (header n).
Proof.
  unfold header, padStart, toString_bytes. apply Forall_app. split.
  - apply Forall_forall. intros b Hb. apply list_elem_of_In, repeat_spec in Hb.
    by subst.
  - destruct (dec_digits_spec n) as (Hf & _ & _).
    apply Forall_forall. intros b Hb. apply list_elem_of_In, in_map_iff in Hb.
    destruct Hb as (d & <- & Hd). apply list_elem_of_In in Hd.
    eapply Forall_forall in Hf; [|exact Hd].
    unfold is_digit. rewrite digit_byte_to_N by done. nbool.
    apply andb_true_iff. split; apply N.leb_le; lia.
Qed.




Lemma digits_value_header (n : N) : digits_value (header n) = n.
Proof.
  destruct (dec_digits_spec n) as (Hf & Hv & _).
  unfold digits_value, header, padStart, toString_bytes. rewrite fold_left_app.
  assert (Hz : forall m, fold_left (fun acc b => 10 * acc + (Byte.to_N b - 48))
                           (repeat x30 m) 0 = 0).
  { induction m as [|m IH]; [done|]. simpl. exact IH. }
  rewrite Hz. rewrite <- Hv at 2. clear Hv. unfold digits_val. generalize 0 as acc.
  induction Hf as [|d ds Hd Hds IH]; intros acc; [done|]. simpl.
  rewrite digit_byte_to_N by done. rewrite <- IH. f_equal. lia.
Qed.

Lemma is_digit_range (b : byte) : is_digit b = true -> 48 <= Byte.to_N b <= 57.
Proof.
  unfold is_digit. cbv zeta. intros H. apply andb_true_iff in H as [H1 H2].
  apply N.leb_le in H1, H2. lia.
Qed.

Lemma utf8_decode_ascii (l : bytes) :
  Forall (fun b => Byte.to_N b <= 127) l -> utf8_decode l = map Byte.to_N l.
Proof.
  unfold utf8_decode. induction 1 as [|b t Hb Ht IH]; [done|].
  cbn [map utf8_go]. unfold utf8_start at 1.
  replace (Byte.to_N b <=? 127) with true by (symmetry; apply N.leb_le; lia).
  by rewrite IH.
Qed.

Lemma digit_not_ws (c : N) : 48 <= c <= 57 -> is_StrWhiteSpaceChar c = false.
Proof.
  intros Hc.
  assert (c = 48 \/ c = 49 \/ c = 50 \/ c = 51 \/ c = 52 \/ c = 53 \/ c = 54
          \/ c = 55 \/ c = 56 \/ c = 57) as Hcs by lia.
  repeat destruct Hcs as [->|Hcs]; try reflexivity; subst; reflexivity.
Qed.

Lemma drop_while_digits (cs : list N) :
  Forall (fun c => 48 <= c <= 57) cs -> drop_while is_StrWhiteSpaceChar cs = cs.
Proof.
  destruct 1 as [|c t Hc _]; [done|]. simpl. by rewrite digit_not_ws.
Qed.

Lemma trim_cps_digits (cs : list N) :
  Forall (fun c => 48 <= c <= 57) cs -> trim_cps cs = cs.
Proof.
  intros Hcs. unfold trim_cps. rewrite (drop_while_digits cs Hcs).
  rewrite drop_while_digits; [apply rev_involutive|]. by apply Forall_rev.
Qed.

Lemma span_digits_all (cs : list N) :
  Forall (fun c => 48 <= c <= 57) cs ->
  span_digits 10 cs = (map (fun c => c - 48) cs, []).
Proof.
  induction 1 as [|c t Hc Ht IH]; [done|]. cbn [span_digits map].
  unfold digit_value at 1.
  replace ((48 <=? c) && (c <=? 57)) with true
    by (symmetry; apply andb_true_iff; split; apply N.leb_le; lia).
  replace (c - 48 <? 10) with true by (symmetry; apply N.ltb_lt; lia).
  by rewrite IH.
Qed.

Lemma digits_to_N_value (l : bytes) :
  digits_to_N 10 (map (fun c => c - 48) (map Byte.to_N l)) = digits_value l.
Proof.
  unfold digits_to_N, digits_value. generalize 0 as acc.
  induction l as [|b t IH]; intros acc; [done|]. simpl. apply IH.
Qed.

(** [Number(header(n))] is [n], and the header is 8 bytes wide, whenever
    [n] has at most 8 digits. *)
Lemma header_Number (n : N) :
  n < 10 ^ 8 ->
  List.length (header n) = 8%nat /\ Number_of_bytes (header n) = NFinite (Z.of_N n) 0.
Proof.
  intros Hn. split.
  - unfold header, padStart, toString_bytes. rewrite length_app, repeat_length, length_map.
    pose proof (dec_digits_fuel_length (N.to_nat (N.size n)) n 8 Hn). unfold dec_digits. lia.
  - assert (Hd : Forall (fun c => 48 <= c <= 57) (map Byte.to_N (header n))).
    { apply Forall_map. eapply Forall_impl; [apply header_digits|].
      intros b Hb. by apply is_digit_range. }
    unfold Number_of_bytes. rewrite utf8_decode_ascii.
    2:{ eapply Forall_impl; [apply header_digits|].
        intros b Hb. apply is_digit_range in Hb. lia. }
    pose proof (digits_to_N_value (header n)) as Hv.
    rewrite digits_value_header in Hv.
    pose proof (span_digits_all _ Hd) as Hs.
    unfold StringToNumber. rewrite (trim_cps_digits _ Hd).
    destruct (map Byte.to_N (header n)) as [|c r] eqn:E.
    + exfalso. apply map_eq_nil in E. unfold header, padStart, toString_bytes in E.
      destruct (dec_digits_spec n) as (_ & _ & Hne).
      apply app_eq_nil in E. destruct E as [_ E]. apply map_eq_nil in E. done.
    + inversion Hd as [|c' r' Hc Hr]; subst c' r'.
      replace (if c =? 48 then match r with x :: _ => nondecimal_radix x | [] => None end
               else None) with (@None N).
      2:{ destruct (c =? 48); [|done]. destruct r as [|x r]; [done|].
          inversion Hr as [|x' r' Hx _]; subst.
          unfold nondecimal_radix.
          repeat match goal with
                 | |- context [?a =? ?b] =>
                     replace (a =? b) with false by (symmetry; apply N.eqb_neq; lia)
                 end; reflexivity. }
      replace (c =? 43) with false by (symmetry; apply N.eqb_neq; lia).
      replace (c =? 45) with false by (symmetry; apply N.eqb_neq; lia).
      unfold parse_StrUnsignedDecimalLiteral.
      rewrite bool_decide_false.
      2:{ unfold Infinity_cps. intros [= Hc73 _]. lia. }
      rewrite Hs. cbn [map] in Hv |- *. cbv zeta. rewrite app_nil_r.
      simpl (Z.of_nat (length [])).
      unfold decimal_value. rewrite Hv.
      destruct (Z.of_N n =? 0)%Z eqn:Hz.
      * apply Z.eqb_eq in Hz. replace n with 0 by lia. reflexivity.
      * change (0 - Z.of_nat 0)%Z with 0%Z.
        replace (0 + Z.of_nat (length ((c - 48)%N :: map (fun c0 => (c0 - 48)%N) r)) <? -325)%Z
          with false by (symmetry; apply Z.ltb_ge; lia).
        cbn -[round_binary64 Z.of_N Z.mul]. rewrite Z.mul_1_r.
        unfold round_binary64.
        replace ((Z.abs (Z.of_N n) <? 2 ^ 53)%Z) with true
          by (symmetry; apply Z.ltb_lt; rewrite Z.abs_eq by lia;
              assert (10 ^ 8 < 2 ^ 53)%Z by reflexivity; lia).
        reflexivity.
Qed.

(* ------------------------------------------------------------------ *)
(** ** The encoder *)

Lemma run_call_bind {A} (h : crypto_handler) (c : CryptoCall)
    (g : crypto_ret c -> CryptoM A) (s : unit) :
  run (lift_h h) (pbind (Vis c Ret) g) s =
    match h c with
    | inl m => (Raised (ErrRejected m), s, [c])
    | inr x => let '(o, s2, t) := run (lift_h h) (g x) s in (o, s2, c :: t)
    end.
Proof. reflexivity. Qed.

Lemma aesCrypt_encrypt_nonempty (data : bytes) (key : CryptoKey) (iv : bytes) :
  data <> [] ->
  aesCrypt data key iv (Some "encrypt"%string) = Vis (SubtleEncrypt iv key data) Ret.
Proof. intros Hd. unfold aesCrypt. by rewrite byteLength_nonempty_ltb. Qed.

Lemma dropN_nonempty {A} (l : list A) (i : N) :
  i < N.of_nat (List.length l) -> dropN i l <> [].
Proof.
  revert i. induction l as [|x l IH]; intros i Hi; simpl in *; [lia|].
  destruct (i =? 0) eqn:E; nbool; [done|].
  apply IH. lia.
Qed.

Lemma slice_nonempty (data : bytes) (i n : N) :
  i < byteLength data -> 0 < n -> slice data i (i + n) <> [].
Proof.
  intros Hi Hn. unfold slice. replace (i + n - i) with n by lia.
  pose proof (dropN_nonempty data i Hi) as Hd.
  destruct (dropN i data) as [|x t]; [done|]. simpl.
  destruct (n =? 0) eqn:E; nbool; [lia | done].
Qed.

Lemma chunk_count_step (L i : N) :
  i < L ->
  (L - i + chunkSize - 1) / chunkSize
  = 1 + (L - (i + chunkSize) + chunkSize - 1) / chunkSize.
Proof.
  intros Hi. assert (Hcs : 0 < chunkSize) by (unfold chunkSize; lia).
  generalize dependent chunkSize. intros cs Hcs.
  replace (L - i + cs - 1) with ((L - i - 1) + 1 * cs) by lia.
  rewrite N.div_add by lia.
  destruct (N.le_gt_cases cs (L - i)).
  - replace (L - (i + cs) + cs - 1) with (L - i - 1) by lia. lia.
  - replace (L - (i + cs) + cs - 1) with (cs - 1) by lia.
    rewrite (N.div_small (cs - 1)) by lia. rewrite (N.div_small (L - i - 1)) by lia.
    lia.
Qed.

Lemma chunk_count_end (L i : N) :
  L <= i -> (L - i + chunkSize - 1) / chunkSize = 0.
Proof.
  intros Hi. replace (L - i) with 0 by lia. by vm_compute.
Qed.

Lemma gcm_encrypt_frame (h : crypto_handler) (key : CryptoKey) (iv d c : bytes) :
  aes_gcm_laws h key iv -> d <> [] -> h (SubtleEncrypt iv key d) = inr c ->
  frame_ok (header (byteLength d + 8), c).
Proof.
  intros Hgcm Hd Hc. destruct (Hgcm d Hd) as (c' & Hc' & Hlen & _).
  rewrite Hc in Hc'. injection Hc' as <-. simpl. unfold byteLength.
  rewrite Hlen, Nat2N.inj_add. split; [lia|]. f_equal. lia.
Qed.

(** The chunk loop: one frame per started chunk of [chunkSize] bytes, each
    well formed under the AES-GCM laws. *)
Lemma encode_loop_done (h : crypto_handler) (fuel : nat) (data : bytes)
    (key : CryptoKey) (iv : bytes) (i : N) (rest : list bytes) (s0 s : unit)
    (t : list CryptoCall) :
  run (lift_h h) (encode_loop fuel data key iv i) s0 = (Done rest, s, t) ->
  rest = mjoin (map (fun '(a, b) => [a; b]) (frames_of rest))
  /\ List.length (frames_of rest)
     = N.to_nat ((byteLength data - i + chunkSize - 1) / chunkSize)
  /\ (aes_gcm_laws h key iv -> Forall frame_ok (frames_of rest)).
Proof.
  revert i rest s0 s t. induction fuel as [|f IH]; intros i rest s0 s t H; [discriminate|].
  cbn [encode_loop] in H. destruct (i <? byteLength data) eqn:Hi; nbool.
  - unfold mbind, prog_bind in H.
    assert (Hne : slice data i (i + chunkSize) <> [])
      by (apply slice_nonempty; [done | unfold chunkSize; lia]).
    rewrite aesCrypt_encrypt_nonempty in H by done.
    rewrite (run_call_bind h (SubtleEncrypt iv key (slice data i (i + chunkSize)))) in H.
    destruct (h (SubtleEncrypt iv key (slice data i (i + chunkSize)))) as [m|c] eqn:Hc;
      [discriminate|].
    rewrite run_pbind in H.
    destruct (run (lift_h h) (encode_loop f data key iv (i + chunkSize)) s0)
      as [[[r|e|] s1] t1] eqn:Hr; simpl in H; try discriminate.
    injection H as <- _ _.
    destruct (IH _ _ _ _ _ Hr) as (Hflat & Hcount & Hok).
    split; [|split].
    + simpl. by rewrite <- Hflat.
    + simpl. rewrite Hcount, (chunk_count_step _ _ Hi). lia.
    + intros Hgcm. simpl. constructor; [|auto].
      eapply gcm_encrypt_frame; eauto.
  - injection H as <- _ _. simpl. rewrite chunk_count_end by lia. auto.
Qed.

(** The common tail of [convertToEncryptedFile] after the metadata frame:
    the chunk loop, [Date.now()] and [hashAndHex]. *)
Ltac encode_tail H :=
  rewrite run_pbind in H;
  match type of H with
  | context [run ?hh (encode_loop ?fu ?d ?k ?v 0) ?s0] =>
      destruct (run hh (encode_loop fu d k v 0) s0) as [[[?r|?e|] ?s1] ?t1] eqn:?Hr;
      cbn beta iota zeta in H; try discriminate
  end;
  rewrite (run_call_bind _ DateNow) in H;
  destruct (_ DateNow) as [?m|?now]; cbn beta iota zeta in H; try discriminate;
  unfold call in H; rewrite (run_call_bind _ (HashAndHex _)) in H;
  match type of H with
  | context [match ?hh (HashAndHex ?x) with _ => _ end] =>
      destruct (hh (HashAndHex x)) as [?m|?nm]; cbn beta iota zeta in H; try discriminate
  end;
  cbn [run mret prog_ret] in H;
  injection H as <- _.

Lemma convertToEncryptedFile_done (h : crypto_handler) (f : WorkingFile)
    (key : CryptoKey) (iv : bytes) (out : JsFile) (t : list CryptoCall) :
  runc h (convertToEncryptedFile f key iv) = (Done out, t) ->
  exists detailsBuf c0 rest s1 t1,
    h (JsonStringify (mkDetails (wf_name f) (wf_lastModified f) (wf_type f)
                        (byteLength (wf_data f)))) = inr detailsBuf
    /\ (detailsBuf = [] /\ c0 = []
        \/ detailsBuf <> [] /\ h (SubtleEncrypt iv key detailsBuf) = inr c0)
    /\ run (lift_h h) (encode_loop (S (List.length (wf_data f))) (wf_data f) key iv 0) tt
       = (Done rest, s1, t1)
    /\ jf_bits out = header (byteLength detailsBuf + 8) :: c0 :: rest.
Proof.
  intros H. unfold runc, convertToEncryptedFile in H. unfold mbind, prog_bind in H.
  set (details := mkDetails _ _ _ _) in H.
  rewrite (run_call_bind h (JsonStringify details)) in H.
  destruct (h (JsonStringify details)) as [m|detailsBuf] eqn:Hs; [discriminate|].
  destruct (decide (detailsBuf = [])) as [->|Hne].
  - change (aesCrypt [] key iv (Some "encrypt"%string))
      with (Ret (E := CryptoCall) (R := crypto_ret) ([] : bytes)) in H.
    cbn [pbind] in H. encode_tail H.
    do 5 eexists. split; [done|]. split; [left; done|]. split; [reflexivity|]. done.
  - rewrite aesCrypt_encrypt_nonempty in H by done.
    rewrite (run_call_bind h (SubtleEncrypt iv key detailsBuf)) in H.
    destruct (h (SubtleEncrypt iv key detailsBuf)) as [m|c0] eqn:Hc; [discriminate|].
    encode_tail H.
    do 5 eexists. split; [done|]. split; [right; done|]. split; [reflexivity|]. done.
Qed.

(** Claim C5: an envelope produced by [convertToEncryptedFile] from a file of
    [s] bytes has exactly [ceil (s / chunkSize) + 1] frames: the metadata frame
    and one frame per started 32 MiB chunk; a 0-byte file gives one frame. *)
Theorem convertToEncryptedFile_frame_count (h : crypto_handler) (f : WorkingFile)
    (key : CryptoKey) (iv : bytes) (out : JsFile) (t : list CryptoCall) :
  runc h (convertToEncryptedFile f key iv) = (Done out, t) ->
  List.length (frames_of (jf_bits out))
  = S (N.to_nat ((byteLength (wf_data f) + chunkSize - 1) / chunkSize)).
Proof.
  intros H.
  destruct (convertToEncryptedFile_done h f key iv out t H)
    as (detailsBuf & c0 & rest & s1 & t1 & _ & _ & Hrun & ->).
  destruct (encode_loop_done h _ _ _ _ _ _ _ _ _ Hrun) as (_ & Hcount & _).
  cbn [frames_of List.length]. rewrite Hcount, N.sub_0_r. reflexivity.
Qed.

Lemma convertToEncryptedFile_frame_count_witness :
  exists out t,
    runc toy_handler (convertToEncryptedFile (mkWorkingFile "empty" 0 "" []) toy_key toy_iv)
    = (Done out, t)
    /\ List.length (frames_of (jf_bits out))
       = S (N.to_nat ((byteLength [] + chunkSize - 1) / chunkSize)).
Proof.
  eexists _, _. split; [reflexivity|].
  eapply (convertToEncryptedFile_frame_count toy_handler
           (mkWorkingFile "empty" 0 "" []) toy_key toy_iv).
  reflexivity.
Defined.

(** Claim C2: under the AES-GCM laws (16-byte tag) every frame written by
    [convertToEncryptedFile] is headed by the decimal of the plaintext length
    plus 8, which is the ciphertext length MINUS 8, not plus 8: the header is
    8 bytes wide and [Number] reads it as [byteLength ct - 8]. *)
Theorem convertToEncryptedFile_header_value (h : crypto_handler) (f : WorkingFile)
    (key : CryptoKey) (iv : bytes) (out : JsFile) (t : list CryptoCall) :
  aes_gcm_laws h key iv ->
  h (JsonStringify (mkDetails (wf_name f) (wf_lastModified f) (wf_type f)
                      (byteLength (wf_data f)))) <> inr [] ->
  runc h (convertToEncryptedFile f key iv) = (Done out, t) ->
  Forall (fun '(hdr, ct) =>
            16 <= byteLength ct /\ hdr = header (byteLength ct - 8)
            /\ (byteLength ct < 10 ^ 8 ->
                List.length hdr = 8%nat /\ Number_of_bytes hdr = NFinite (Z.of_N (byteLength ct - 8)) 0))
         (frames_of (jf_bits out)).
Proof.
  intros Hgcm Hjs H.
  destruct (convertToEncryptedFile_done h f key iv out t H)
    as (detailsBuf & c0 & rest & s1 & t1 & Hs & Hc0 & Hrun & ->).
  destruct (encode_loop_done h _ _ _ _ _ _ _ _ _ Hrun) as (_ & _ & Hok).
  assert (Hall : Forall frame_ok (frames_of (header (byteLength detailsBuf + 8) :: c0 :: rest))).
  { cbn [frames_of]. constructor; [|by apply Hok].
    destruct Hc0 as [[-> _] | [Hne Hc]]; [by rewrite Hs in Hjs|].
    eapply gcm_encrypt_frame; eauto. }
  eapply Forall_impl; [exact Hall|].
  intros [hdr ct] [Hlen ->]. split; [done|]. split; [done|].
  intros Hlt. apply header_Number. lia.
Qed.

Lemma convertToEncryptedFile_header_value_witness :
  exists out t,
    runc toy_handler (convertToEncryptedFile (mkWorkingFile "a" 0 "" [x41]) toy_key toy_iv)
    = (Done out, t)
    /\ Forall (fun '(hdr, ct) =>
            16 <= byteLength ct /\ hdr = header (byteLength ct - 8)
            /\ (byteLength ct < 10 ^ 8 ->
                List.length hdr = 8%nat /\ Number_of_bytes hdr = NFinite (Z.of_N (byteLength ct - 8)) 0))
         (frames_of (jf_bits out)).
Proof.
  eexists _, _. split; [reflexivity|].
  eapply (convertToEncryptedFile_header_value toy_handler
           (mkWorkingFile "a" 0 "" [x41]) toy_key toy_iv).
  - apply toy_aes_gcm_laws.
  - vm_compute. discriminate.
  - reflexivity.
Defined.

(** Claim C1: on a well-formed two-frame envelope the decoder hands the
    still-encrypted body frame (tag included) to the [File] constructor as
    the file body, and the still-encrypted first frame to [JSON.parse]; the
    plaintext that [aesCrypt(segment, key, iv, 'decrypt')] produces is
    dropped. *)
Theorem convertFromEncryptedFile_keeps_ciphertext :
  runc toy_handler (convertFromEncryptedFile env_ok toy_key toy_iv)
  = (Done (mkJsFile [body_plain ++ toy_tag]
             (String.string_of_list_byte (meta_plain ++ toy_tag)) "" None),
     [SubtleDecrypt toy_iv toy_key (meta_plain ++ toy_tag);
      SubtleDecrypt toy_iv toy_key (body_plain ++ toy_tag);
      JsonParse (meta_plain ++ toy_tag);
      NewFile [body_plain ++ toy_tag]
        (Some (JString (map Byte.to_N (meta_plain ++ toy_tag))))
        (JObject [(name_key, JString (map Byte.to_N (meta_plain ++ toy_tag)))])])
  /\ toy_handler (SubtleDecrypt toy_iv toy_key (body_plain ++ toy_tag)) = inr body_plain
  /\ body_plain ++ toy_tag <> body_plain.
Proof.
  split; [vm_compute; reflexivity|]. split; [reflexivity|]. vm_compute. discriminate.
Qed.

(* ------------------------------------------------------------------ *)
(** ** The decoder *)







(** *** Buffers and integer offsets *)

Lemma dropN_past {A} (i : N) (l : list A) : N.of_nat (List.length l) <= i -> dropN i l = [].
Proof.
  revert i. induction l as [|x t IH]; intros i Hi; [done|]. simpl in *.
  destruct (i =? 0) eqn:E; nbool; [lia|]. apply IH. lia.
Qed.

Lemma length_dropN {A} (k : N) (l : list A) :
  List.length (dropN k l) = (List.length l - N.to_nat k)%nat.
Proof.
  revert k. induction l as [|x t IH]; intros k; [done|]. cbn [dropN List.length].
  destruct (k =? 0) eqn:E; nbool.
  - subst k. cbn [List.length]. lia.
  - rewrite IH. lia.
Qed.


Lemma takeN_min {A} (n : N) (l : list A) :
  takeN (N.min n (N.of_nat (List.length l))) l = takeN n l.
Proof.
  revert n. induction l as [|x t IH]; intros n; [done|]. cbn [takeN List.length].
  destruct (n =? 0) eqn:E; nbool.
  - subst n. done.
  - replace (N.min n (N.of_nat (S (List.length t))) =? 0) with false
      by (symmetry; apply N.eqb_neq; lia).
    replace (N.pred (N.min n (N.of_nat (S (List.length t)))))
      with (N.min (N.pred n) (N.of_nat (List.length t))) by lia.
    by rewrite IH.
Qed.


Lemma dropN_zero {A} (l : list A) : dropN 0 l = l.
Proof. by destruct l. Qed.

Lemma dropN_app_length {A} (a b : list A) : dropN (N.of_nat (List.length a)) (a ++ b) = b.
Proof.
  induction a as [|x a IH]; [by destruct b|]. simpl.
  destruct (N.of_nat (S (List.length a)) =? 0) eqn:E; nbool; [lia|].
  replace (N.pred (N.of_nat (S (List.length a)))) with (N.of_nat (List.length a)) by lia.
  apply IH.
Qed.

Lemma takeN_app_length {A} (a b : list A) : takeN (N.of_nat (List.length a)) (a ++ b) = a.
Proof.
  induction a as [|x a IH]; [by destruct b|]. simpl.
  destruct (N.of_nat (S (List.length a)) =? 0) eqn:E; nbool; [lia|].
  replace (N.pred (N.of_nat (S (List.length a)))) with (N.of_nat (List.length a)) by lia.
  by rewrite IH.
Qed.

Lemma adjustOffset_of_N (k len : N) : adjustOffset (num_of_N k) len = N.min k len.
Proof.
  unfold adjustOffset, num_of_N, num_trunc. rewrite Z.leb_refl, Z.shiftl_0_r.
  destruct (Z.of_N k =? 0)%Z eqn:E0; nbool; [lia|].
  destruct (Z.of_N k <? 0)%Z eqn:E1; nbool; [lia|].
  destruct (Z.of_N k <? Z.of_N len)%Z eqn:E2; nbool; lia.
Qed.

(** With integer bounds, [slice_num] is [slice]. *)
Lemma slice_num_of_N (l : bytes) (a b : N) :
  slice_num l (num_of_N a) (num_of_N b) = slice l a b.
Proof.
  unfold slice_num. rewrite !adjustOffset_of_N. unfold slice, byteLength.
  destruct (N.le_gt_cases (N.of_nat (List.length l)) a) as [Ha|Ha].
  - rewrite (dropN_past a l Ha), (dropN_past (N.min a _) l); [by destruct (_ - _)|lia].
  - replace (N.min a (N.of_nat (List.length l))) with a by lia.
    rewrite <- (takeN_min (b - a) (dropN a l)), <- (takeN_min (_ - a) (dropN a l)).
    rewrite length_dropN. f_equal. lia.
Qed.

Lemma num_add_int (a b : Z) :
  (Z.abs (a + b) < 2 ^ 53)%Z -> num_add (NFinite a 0) (NFinite b 0) = NFinite (a + b) 0.
Proof.
  intros H. unfold num_add. rewrite Z.min_id, Z.sub_diag, !Z.shiftl_0_r.
  unfold round_dyadic. rewrite Z.leb_refl, Z.shiftl_0_r. unfold round_binary64.
  replace (Z.abs (a + b) <? 2 ^ 53)%Z with true by (symmetry; apply Z.ltb_lt; lia).
  reflexivity.
Qed.

Lemma num_lt_N_of_N (a n : N) : num_lt_N (num_of_N a) n = (a <? n).
Proof.
  unfold num_lt_N, num_of_N. rewrite Z.leb_refl, Z.shiftl_0_r.
  destruct (a <? n) eqn:E; nbool; apply Z.ltb_lt || apply Z.ltb_ge; lia.
Qed.

Lemma num_is_zero_of_N (a : N) : num_is_zero (num_of_N a) = (a =? 0).
Proof. by destruct a. Qed.

Lemma aesCrypt_empty (key : CryptoKey) (iv : bytes) (mode : option string) :
  aesCrypt [] key iv mode = mret [].
Proof. reflexivity. Qed.

(** A turn at an integer [i] whose header [Number] reads as an integer [z]:
    the segment is [source.slice(i + 8, i + 8 + z)] and the walk moves to
    [i + 8 + z]. *)
Lemma decode_step_int (source : bytes) (key : CryptoKey) (iv : bytes) (i : N) (z : Z)
    (d : bytes) (ps : list bytes) :
  i < byteLength source -> i + 8 < 2 ^ 53 -> (0 <= Z.of_N i + 8 + z < 2 ^ 53)%Z ->
  Number_of_bytes (slice source i (i + 8)) = NFinite z 0 ->
  decode_step source key iv (num_of_N i, d, ps)
  = (_ ← aesCrypt (slice source (i + 8) (Z.to_N (Z.of_N i + 8 + z))) key iv
           (Some "decrypt"%string);
     if i =? 0
     then mret (inl (num_of_N (Z.to_N (Z.of_N i + 8 + z)),
                     slice source (i + 8) (Z.to_N (Z.of_N i + 8 + z)), ps))
     else mret (inl (num_of_N (Z.to_N (Z.of_N i + 8 + z)), d,
                     ps ++ [slice source (i + 8) (Z.to_N (Z.of_N i + 8 + z))]))).
Proof.
  intros Hi H8 Hz Hn. unfold decode_step. cbn beta iota zeta.
  rewrite num_lt_N_of_N. replace (i <? byteLength source) with true by (symmetry; apply N.ltb_lt; lia).
  assert (Ho : num_add (num_of_N i) (num_of_N 8) = num_of_N (i + 8)).
  { unfold num_of_N. rewrite num_add_int by lia. f_equal. lia. }
  rewrite Ho, slice_num_of_N, Hn.
  assert (Hl : num_add (num_of_N (i + 8)) (NFinite z 0)
               = num_of_N (Z.to_N (Z.of_N i + 8 + z))).
  { unfold num_of_N. rewrite num_add_int by lia. f_equal. lia. }
  rewrite Hl, slice_num_of_N, num_is_zero_of_N. reflexivity.
Qed.



Lemma decode_step_end (source : bytes) (key : CryptoKey) (iv : bytes) (i : N)
    (d : bytes) (ps : list bytes) :
  byteLength source <= i -> decode_step source key iv (num_of_N i, d, ps) = mret (inr (d, ps)).
Proof.
  intros Hi. unfold decode_step. cbn beta iota zeta. rewrite num_lt_N_of_N.
  replace (i <? byteLength source) with false by (symmetry; apply N.ltb_ge; lia). reflexivity.
Qed.

(** *** The loop *)


Lemma run_loop_n_S {E R S St B} (h : forall c : E, St -> (string + R c) * St)
    (n : nat) (body : S -> prog E R (S + B)) (s : S) (st : St) :
  run h (loop_n (Datatypes.S n) body s) st
  = match run h (body s) st with
    | (Done (inl s'), s1, t1) => let '(o, s2, t2) := run h (loop_n n body s') s1 in (o, s2, t1 ++ t2)
    | (Done (inr b), s1, t1) => (Done (inr b), s1, t1)
    | (Raised e, s1, t1) => (Raised e, s1, t1)
    | (OutOfModel, s1, t1) => (OutOfModel, s1, t1)
    end.
Proof.
  cbn [loop_n]. unfold mbind, prog_bind. rewrite run_pbind.
  destruct (run h (body s) st) as [[[[s'|b]|e|] s1] t1]; [done| |done|done].
  cbn. by rewrite app_nil_r.
Qed.

Lemma run_loop_n_add {E R S St B} (h : forall c : E, St -> (string + R c) * St)
    (a b : nat) (body : S -> prog E R (S + B)) (s : S) (st : St) :
  run h (loop_n (a + b) body s) st
  = match run h (loop_n a body s) st with
    | (Done (inl s'), s1, t1) => let '(o, s2, t2) := run h (loop_n b body s') s1 in (o, s2, t1 ++ t2)
    | (Done (inr x), s1, t1) => (Done (inr x), s1, t1)
    | (Raised e, s1, t1) => (Raised e, s1, t1)
    | (OutOfModel, s1, t1) => (OutOfModel, s1, t1)
    end.
Proof.
  revert s st. induction a as [|a IH]; intros s st.
  - cbn [loop_n Nat.add]. unfold mret, prog_ret. cbn [run].
    destruct (run h (loop_n b body s) st) as [[o s2] t2]. done.
  - rewrite Nat.add_succ_l, !run_loop_n_S.
    destruct (run h (body s) st) as [[[[s'|x]|e|] s1] t1]; [|done|done|done].
    rewrite IH.
    destruct (run h (loop_n a body s') s1) as [[[[s''|x]|e|] s2] t2]; try done.
    cbn. destruct (run h (loop_n b body s'') s2) as [[o s3] t3]. by rewrite app_assoc.
Qed.

Lemma run_loop_at_most {E R S St B} (h : forall c : E, St -> (string + R c) * St)
    (p : positive) (body : S -> prog E R (S + B)) (s : S) (st : St) :
  run h (loop_at_most p body s) st = run h (loop_n (Pos.to_nat p) body s) st.
Proof.
  revert s st. induction p as [p IH|p IH|]; intros s st; cbn [loop_at_most].
  - rewrite Pos2Nat.inj_xI, run_loop_n_S. unfold mbind, prog_bind. rewrite run_pbind.
    destruct (run h (body s) st) as [[[[s'|x]|e|] s1] t1]; [|cbn; by rewrite app_nil_r|done|done].
    replace (2 * Pos.to_nat p)%nat with (Pos.to_nat p + Pos.to_nat p)%nat by lia.
    rewrite run_pbind, run_loop_n_add, IH.
    destruct (run h (loop_n (Pos.to_nat p) body s') s1) as [[[[s''|x]|e|] s2] t2]; cbn.
    + rewrite IH. destruct (run h (loop_n (Pos.to_nat p) body s'') s2) as [[o s3] t3].
      by rewrite app_assoc.
    + by rewrite app_nil_r.
    + done.
    + done.
  - rewrite Pos2Nat.inj_xO. unfold mbind, prog_bind.
    replace (2 * Pos.to_nat p)%nat with (Pos.to_nat p + Pos.to_nat p)%nat by lia.
    rewrite run_pbind, run_loop_n_add, IH.
    destruct (run h (loop_n (Pos.to_nat p) body s) st) as [[[[s'|x]|e|] s1] t1]; cbn.
    + rewrite IH. done.
    + by rewrite app_nil_r.
    + done.
    + done.
  - change (Pos.to_nat 1) with 1%nat. rewrite run_loop_n_S.
    destruct (run h (body s) st) as [[[[s'|x]|e|] s1] t1]; try done.
    cbn. by rewrite app_nil_r.
Qed.

Lemma run_loop_n_mono {E R S St B} (h : forall c : E, St -> (string + R c) * St)
    (n m : nat) (body : S -> prog E R (S + B)) (s : S) (st st' : St) (b : B) t :
  (n <= m)%nat -> run h (loop_n n body s) st = (Done (inr b), st', t) ->
  run h (loop_n m body s) st = (Done (inr b), st', t).
Proof.
  revert m s st t. induction n as [|n IH]; intros m s st t Hm Hr; [discriminate|].
  destruct m as [|m]; [lia|]. rewrite run_loop_n_S in *.
  destruct (run h (body s) st) as [[[[s'|x]|e|] s1] t1]; try done.
  destruct (run h (loop_n n body s') s1) as [[o s2] t2] eqn:Hn'.
  injection Hr as -> -> <-. by rewrite (IH m s' s1 t2); [| lia |].
Qed.

(** A walk that ends within [n] turns, [n] below the bound, ends within the
    bound. *)
Lemma loop_at_most_walk_bound {E R S St B} (h : forall c : E, St -> (string + R c) * St)
    (n : nat) (body : S -> prog E R (S + B)) (s : S) (st st' : St) (b : B) t :
  (N.of_nat n <= 2 ^ 64)%N -> run h (loop_n n body s) st = (Done (inr b), st', t) ->
  run h (loop_at_most walk_bound body s) st = (Done (inr b), st', t).
Proof.
  intros Hn Hr. rewrite run_loop_at_most. apply (run_loop_n_mono h n); [|done].
  rewrite <- positive_N_nat. change (N.pos walk_bound) with (2 ^ 64)%N.
  lia.
Qed.



(* ------------------------------------------------------------------ *)
(** ** FolderHandler *)

Section FolderFacts.

Context {FileMeta EncodeObject : Type}.
Variable stripper : string -> string.
Variable save : string -> string -> string -> @FolderFileFrame FileMeta
                -> string + EncodeObject.

Lemma keeps_ident_run {A} (i : string * string * string)
    (p : prog FolderCall (@folder_ret FileMeta EncodeObject) A)
    (s : FolderFileFrame) :
  keeps_ident i p -> ident s = i ->
  let '(o, s', t) := run (folder_handler save) p s in
  ident s' = i /\ Forall (saves_owned_by i.2) t.
Proof.
  intros Hp. revert s.
  induction Hp as [a|e| |k Hk IH|d k Hd Hk IH|a w n d k Hd Hk IH]; intros s Hs; cbn [run].
  - auto.
  - auto.
  - auto.
  - cbn [folder_handler]. specialize (IH s Hs s Hs).
    destruct (run _ (k s) s) as [[o s2] t2]. destruct IH as [? ?].
    split; [done|]. by constructor.
  - cbn [folder_handler]. specialize (IH d Hd).
    destruct (run _ (k tt) d) as [[o s2] t2]. destruct IH as [? ?].
    split; [done|]. by constructor.
  - cbn [folder_handler]. destruct (save a w n d) as [msg|x].
    + split; [done|]. by repeat constructor.
    + specialize (IH x s Hs). destruct (run _ (k x) s) as [[o s2] t2].
      destruct IH as [? ?]. split; [done|]. by constructor.
Qed.

Lemma keeps_ident_pbind {A B} (i : string * string * string)
    (p : prog FolderCall (@folder_ret FileMeta EncodeObject) A)
    (f : A -> prog FolderCall (@folder_ret FileMeta EncodeObject) B) :
  keeps_ident i p -> (forall a, keeps_ident i (f a)) -> keeps_ident i (pbind p f).
Proof.
  intros Hp Hf. induction Hp; cbn [pbind]; try constructor; auto.
Qed.

Lemma getForFiletree_keeps (i : string * string * string) (w : WalletRef)
    (d : @FolderFileFrame FileMeta) :
  whoOwnsMe d = i.2 ->
  keeps_ident (EncodeObject := EncodeObject) i (getForFiletree w d).
Proof.
  intros Hd. unfold getForFiletree. destruct (wr_traits w); repeat constructor; done.
Qed.

Lemma getForFiletree_this_keeps (i : string * string * string) (w : WalletRef) :
  keeps_ident (FileMeta := FileMeta) (EncodeObject := EncodeObject) i
    (getForFiletree_this w).
Proof.
  unfold getForFiletree_this, mbind, prog_bind, call. cbn [pbind].
  constructor. intros d Hd. apply getForFiletree_keeps.
  rewrite <- Hd. reflexivity.
Qed.

Lemma mapM_getForFiletree_keeps (i : string * string * string) (w : WalletRef)
    (ds : list (@FolderFileFrame FileMeta)) :
  Forall (fun d => whoOwnsMe d = i.2) ds ->
  keeps_ident (EncodeObject := EncodeObject) i (mapM (getForFiletree w) ds).
Proof.
  induction 1 as [|d ds Hd Hds IH]; cbn [mapM]; [constructor|].
  unfold mbind, prog_bind. apply keeps_ident_pbind; [by apply getForFiletree_keeps|].
  intros y. apply keeps_ident_pbind; [done|]. intros ys. constructor.
Qed.

Lemma ident_set_dirChildren (d : @FolderFileFrame FileMeta) l :
  ident (set_dirChildren d l) = ident d.
Proof. reflexivity. Qed.

Lemma ident_set_fileChildren (d : @FolderFileFrame FileMeta) m :
  ident (set_fileChildren d m) = ident d.
Proof. reflexivity. Qed.

Lemma addChildDirs_keeps (i : string * string * string) names (w : WalletRef) :
  keeps_ident (FileMeta := FileMeta) (EncodeObject := EncodeObject) i
    (addChildDirs stripper names w).
Proof.
  unfold addChildDirs, mbind, prog_bind, call. cbn [pbind].
  constructor. intros d Hd. apply keeps_ident_pbind.
  - apply mapM_getForFiletree_keeps. apply Forall_forall.
    intros c Hc. apply list_elem_of_In, in_map_iff in Hc as (name & <- & _).
    rewrite <- Hd. reflexivity.
  - intros encoded. destruct (0 <? _)%nat; [|constructor].
    cbn [pbind]. constructor. intros d' Hd'.
    constructor; [by rewrite ident_set_dirChildren|].
    cbn [pbind]. apply keeps_ident_pbind; [apply getForFiletree_this_keeps|].
    intros me. constructor.
Qed.

Lemma addChildFileReferences_keeps (i : string * string * string) m (w : WalletRef) :
  keeps_ident (FileMeta := FileMeta) (EncodeObject := EncodeObject) i
    (addChildFileReferences m w).
Proof.
  unfold addChildFileReferences, mbind, prog_bind, call. cbn [pbind].
  constructor. intros d Hd. constructor; [by rewrite ident_set_fileChildren|].
  apply getForFiletree_this_keeps.
Qed.

Lemma removeChildDirReferences_keeps (i : string * string * string) l (w : WalletRef) :
  keeps_ident (FileMeta := FileMeta) (EncodeObject := EncodeObject) i
    (removeChildDirReferences l w).
Proof.
  unfold removeChildDirReferences, mbind, prog_bind, call. cbn [pbind].
  constructor. intros d Hd. constructor; [by rewrite ident_set_dirChildren|].
  apply getForFiletree_this_keeps.
Qed.

Lemma removeChildFileReferences_keeps (i : string * string * string) l (w : WalletRef) :
  keeps_ident (FileMeta := FileMeta) (EncodeObject := EncodeObject) i
    (removeChildFileReferences l w).
Proof.
  unfold removeChildFileReferences, mbind, prog_bind, call. cbn [pbind].
  constructor. intros d Hd. constructor; [by rewrite ident_set_fileChildren|].
  apply getForFiletree_this_keeps.
Qed.

Lemma removeChildDirAndFileReferences_keeps (i : string * string * string) ds fs
    (w : WalletRef) :
  keeps_ident (FileMeta := FileMeta) (EncodeObject := EncodeObject) i
    (removeChildDirAndFileReferences ds fs w).
Proof.
  unfold removeChildDirAndFileReferences, mbind, prog_bind, call. cbn [pbind].
  constructor. intros d Hd. constructor; [by rewrite ident_set_dirChildren|].
  constructor. intros d' Hd'. constructor; [by rewrite ident_set_fileChildren|].
  apply getForFiletree_this_keeps.
Qed.

End FolderFacts.

(** Claim C9: every mutating method of [FolderHandler], with any arguments,
    any wallet and any answer of [saveFileTreeEntry] (also when it fails),
    leaves [whoAmI], [whereAmI] and [whoOwnsMe] of the node unchanged; every
    change record it builds, among them those of the children created by
    [addChildDirs], is built from a node owned by this node's owner. *)
Theorem folder_ops_keep_identity {FileMeta EncodeObject : Type}
    (stripper : string -> string)
    (save : string -> string -> string -> @FolderFileFrame FileMeta
            -> string + EncodeObject)
    (walletRef : WalletRef) (op : @FolderOp FileMeta) (s : @FolderFileFrame FileMeta) :
  let '(s', t) := op_run stripper save walletRef op s in
  ident s' = ident s /\ Forall (saves_owned_by (whoOwnsMe s)) t.
Proof.
  change (whoOwnsMe s) with (ident s).2.
  destruct op as [names|m|l|l|ds fs]; unfold op_run.
  - pose proof (keeps_ident_run save (ident s) _ s
                  (addChildDirs_keeps stripper (ident s) names walletRef) eq_refl) as H.
    destruct (run _ _ s) as [[o s'] t]. exact H.
  - pose proof (keeps_ident_run save (ident s) _ s
                  (addChildFileReferences_keeps (ident s) m walletRef) eq_refl) as H.
    destruct (run _ _ s) as [[o s'] t]. exact H.
  - pose proof (keeps_ident_run save (ident s) _ s
                  (removeChildDirReferences_keeps (ident s) l walletRef) eq_refl) as H.
    destruct (run _ _ s) as [[o s'] t]. exact H.
  - pose proof (keeps_ident_run save (ident s) _ s
                  (removeChildFileReferences_keeps (ident s) l walletRef) eq_refl) as H.
    destruct (run _ _ s) as [[o s'] t]. exact H.
  - pose proof (keeps_ident_run save (ident s) _ s
                  (removeChildDirAndFileReferences_keeps (ident s) ds fs walletRef) eq_refl)
      as H.
    destruct (run _ _ s) as [[o s'] t]. exact H.
Qed.

(** Claim C6 (amended): on the node "docs" in "/home/alice" owned by
    "alice" with no children, [addChildDirs(["reports","reports"])] returns
    [existing = []] and leaves [dirChildren = ["reports"]], but builds one
    change record per occurrence of the new name: two identical records of
    the child "reports", then this node's own record.  A second call with
    [["reports"]] returns [existing = ["reports"]], builds no record and
    leaves the node unchanged (its only call reads the node). *)
Theorem addChildDirs_reports_scenario {FileMeta EncodeObject : Type}
    (stripper : string -> string)
    (f : string -> string -> string -> @FolderFileFrame FileMeta -> EncodeObject)
    (addr : string) :
  let save := fun a w n d => (inr (f a w n d) : string + EncodeObject) in
  let walletRef := mkWalletRef true addr in
  let s0 : @FolderFileFrame FileMeta := mkFrame "docs" "/home/alice" "alice" [] ∅ in
  let s1 : @FolderFileFrame FileMeta := mkFrame "docs" "/home/alice" "alice" ["reports"] ∅ in
  let child : @FolderFileFrame FileMeta :=
    mkFrame (stripper (stripper "reports")) "/home/alice/docs" "alice" [] ∅ in
  let child_record := f addr "/home/alice/docs" (stripper (stripper "reports")) child in
  (exists t,
     run (folder_handler save) (addChildDirs stripper ["reports"; "reports"] walletRef) s0
     = (Done ([child_record; child_record; f addr "/home/alice" "docs" s1], []), s1, t))
  /\ run (folder_handler save) (addChildDirs stripper ["reports"] walletRef) s1
     = (Done ([], ["reports"]), s1, [FGet]).
Proof.
  split; [eexists|]; reflexivity.
Qed.

(** Claim C6: the first call builds three change records, two of them for
    the same child "reports", not one child record plus the node's own. *)
Lemma addChildDirs_duplicate_counterexample :
  exists t,
    run (folder_handler (fun _ _ n _ => inr n))
      (addChildDirs (FileMeta := unit) (fun x => x) ["reports"; "reports"]
         (mkWalletRef true "jkl1"))
      (mkFrame "docs" "/home/alice" "alice" [] ∅)
    = (Done (["reports"; "reports"; "docs"], []),
       mkFrame "docs" "/home/alice" "alice" ["reports"] ∅, t)
    /\ List.length ["reports"; "reports"; "docs"] = 3%nat.
Proof. eexists. split; reflexivity. Qed.

(* ------------------------------------------------------------------ *)
(** ** aesToString and stringToAes *)

Lemma hex_pair_not_pipe (x : byte) :
  hex_char (Byte.to_N x / 16) <> "|"%char /\ hex_char (Byte.to_N x mod 16) <> "|"%char.
Proof. destruct x; vm_compute; split; discriminate. Qed.

Lemma to_hex_no_pipe (b : bytes) : (indexOf "|" (to_hex b) < 0)%Z.
Proof.
  induction b as [|x b IH]; simpl; [lia|].
  destruct (hex_pair_not_pipe x) as [H1 H2].
  destruct (ascii_dec _ "|") as [E|_]; [done|].
  destruct (ascii_dec _ "|") as [E|_]; [done|].
  destruct (indexOf "|" (to_hex b) <? 0)%Z eqn:E; [|apply Z.ltb_ge in E; lia].
  rewrite E. done.
Qed.

Lemma split_on_absent (c : ascii) (s : string) :
  (indexOf c s < 0)%Z -> split_on c s = [s].
Proof.
  induction s as [|x s IH]; simpl; intros Hs; [done|].
  destruct (ascii_dec x c); [lia|].
  destruct (indexOf c s <? 0)%Z eqn:E; [|lia].
  apply Z.ltb_lt in E. by rewrite IH.
Qed.

Lemma of_hex_to_hex (b : bytes) : of_hex (to_hex b) = b.
Proof.
  induction b as [|x b IH]; [done|].
  cbn [to_hex]. rewrite <- IH at 2.
  destruct x; reflexivity.
Qed.

(** [stringToAes] undoes [aesToString]: the wrapped string of an iv and a
    key, given to the holder of the private key, gives back the same iv
    and key, provided ECIES decryption inverts encryption and
    [importJackalKey] inverts [exportJackalKey].  The hex encoding never
    contains ['|'], so the split finds exactly the two fields. *)
Theorem aesToString_stringToAes (hw : forall c : WrapCall, string + wrap_ret c)
    (h : crypto_handler) (pubKey : string) (aes : AesBundle) (s : string)
    (tw : list WrapCall) :
  (forall x ct, hw (EciesEncrypt pubKey x) = inr ct ->
     h (AsymmetricDecrypt (to_hex ct)) = inr x) ->
  (forall k raw, hw (SubtleExportKey k) = inr raw -> h (SubtleImportKey raw) = inr k) ->
  runw hw (aesToString pubKey aes) = (Done s, tw) ->
  fst (runc h (stringToAes s)) = Done aes.
Proof.
  intros Hdec Himp Hw. destruct aes as [iv key].
  unfold runw, aesToString, asymmetricEncrypt, exportJackalKey, call in Hw; cbn in Hw.
  destruct (hw (EciesEncrypt pubKey iv)) as [m|ctIv] eqn:E1; [discriminate|].
  cbn in Hw.
  destruct (hw (SubtleExportKey key)) as [m|raw] eqn:E2; [discriminate|].
  cbn in Hw.
  destruct (hw (EciesEncrypt pubKey raw)) as [m|ctKey] eqn:E3; [discriminate|].
  cbn in Hw. injection Hw as <- _.
  unfold stringToAes.
  pose proof (to_hex_no_pipe ctIv) as Hiv.
  change ("|" +:+ to_hex ctKey) with (String "|" (to_hex ctKey)).
  rewrite (proj2 (Z.ltb_ge _ 0)) by (pose proof (indexOf_app_found "|" _ (to_hex ctKey) Hiv); exact H).
  rewrite split_on_app_found by done.
  rewrite (split_on_absent _ _ (to_hex_no_pipe ctKey)).
  unfold runc, importJackalKey, call; cbn.
  rewrite (Hdec _ _ E1). cbn. rewrite (Hdec _ _ E3). cbn.
  rewrite (Himp _ _ E2). reflexivity.
Qed.

Lemma aesToString_stringToAes_witness :
  exists s tw,
    runw toy_wrap_handler (aesToString "pub" (mkAesBundle toy_iv toy_key)) = (Done s, tw)
    /\ fst (runc toy_wallet_handler (stringToAes s)) = Done (mkAesBundle toy_iv toy_key).
Proof.
  eexists _, _. split; [reflexivity|].
  eapply (aesToString_stringToAes toy_wrap_handler toy_wallet_handler "pub").
  - intros x ct H. simpl in H. injection H as <-. simpl. by rewrite of_hex_to_hex.
  - intros [raw] raw' H. simpl in H. injection H as <-. reflexivity.
  - reflexivity.
Defined.

(* ------------------------------------------------------------------ *)
(** ** cryptString *)

(** Under a cipher with the AES-GCM laws, decrypting with [cryptString] the
    base64 text that [cryptString] produced in encrypt mode gives back the
    input, when [Buffer]'s base64 decoding inverts its encoding and the
    input survives the UTF-8 round trip (no lone surrogate). *)
Theorem cryptString_roundtrip (utf8_encode : string -> bytes)
    (base64_encode : bytes -> string) (base64_decode : string -> bytes)
    (utf8_decode : bytes -> string) (h : crypto_handler) (key : CryptoKey)
    (iv : bytes) (input : string) :
  (forall b, base64_decode (base64_encode b) = b) ->
  utf8_decode (utf8_encode input) = input ->
  aes_gcm_laws h key iv ->
  fst (runc h (c ← cryptString utf8_encode base64_encode base64_decode utf8_decode
                      input key iv "encrypt";
               cryptString utf8_encode base64_encode base64_decode utf8_decode
                 c key iv "decrypt")) = Done input.
Proof.
  intros Hb64 Hu8 Hgcm. unfold cryptString. cbn [String.eqb Ascii.eqb Bool.eqb].
  unfold mbind, prog_bind. rewrite <- Hu8 at 2.
  destruct (utf8_encode input) as [|x b] eqn:Eu.
  - unfold runc, aesCrypt at 1. simpl. rewrite Hb64. simpl. reflexivity.
  - destruct (Hgcm (x :: b)) as (c & Henc & Hlen & Hdec); [done|].
    assert (Hc : c <> []) by (intros ->; simpl in Hlen; lia).
    unfold aesCrypt at 1. rewrite byteLength_nonempty_ltb by done.
    unfold runc. simpl. rewrite Henc. simpl.
    unfold aesCrypt. rewrite Hb64, byteLength_nonempty_ltb by done.
    simpl. rewrite Hdec. reflexivity.
Qed.

Lemma cryptString_roundtrip_witness :
  fst (runc toy_handler
         (c ← cryptString String.list_byte_of_string String.string_of_list_byte
                String.list_byte_of_string String.string_of_list_byte
                "hi" toy_key toy_iv "encrypt";
          cryptString String.list_byte_of_string String.string_of_list_byte
            String.list_byte_of_string String.string_of_list_byte
            c toy_key toy_iv "decrypt")) = Done "hi"%string.
Proof.
  apply cryptString_roundtrip.
  - intros b. apply String.list_byte_of_string_of_list_byte.
  - reflexivity.
  - apply toy_aes_gcm_laws.
Defined.

(* ------------------------------------------------------------------ *)
(** ** FolderHandler: the edits of the child sets *)

Section FolderEdits.

Context {FileMeta EncodeObject : Type}.
Variable save : string -> string -> string -> @FolderFileFrame FileMeta
                -> string + EncodeObject.

Lemma includes_spec (l : list string) (x : string) : includes l x = true <-> x ∈ l.
Proof.
  unfold includes. rewrite existsb_exists, list_elem_of_In. split.
  - intros (y & Hy & E). apply String.eqb_eq in E. by subst.
  - intros Hx. exists x. split; [done|]. apply String.eqb_refl.
Qed.

Lemma delete_all_lookup (toRemove : list string) (m : gmap string FileMeta) (k : string) :
  delete_all toRemove m !! k = if decide (k ∈ toRemove) then None else m !! k.
Proof.
  unfold delete_all. revert m. induction toRemove as [|x l IH]; intros m; cbn [fold_left].
  - by rewrite decide_False by set_solver.
  - rewrite IH. destruct (decide (k ∈ l)) as [Hl|Hl].
    + by rewrite decide_True by set_solver.
    + destruct (decide (x = k)) as [->|Hne].
      * rewrite decide_True by set_solver. apply lookup_delete_eq.
      * rewrite decide_False by set_solver. by apply lookup_delete_ne.
Qed.

Lemma run_getForFiletree_this_state (w : WalletRef) (s : @FolderFileFrame FileMeta) :
  (run (folder_handler save) (getForFiletree_this w) s).1.2 = s.
Proof.
  unfold getForFiletree_this, getForFiletree. simpl.
  destruct (wr_traits w); simpl; [|done].
  by destruct (save _ _ _ _).
Qed.

(** Runs a folder edit to its end: the wallet's signing ability and the
    answer of [saveFileTreeEntry] are the only open choices. *)
Ltac run_edit :=
  unfold getForFiletree_this, getForFiletree; simpl;
  destruct (wr_traits _); simpl; [try (destruct (save _ _ _ _); simpl)|].

(** [addChildFileReferences]: whatever the outcome (also when the wallet
    cannot sign or the change record fails), the node's file map becomes the
    new entries over the old ones: a name in [newFiles] maps to its new
    entry, any other name keeps its old entry; nothing else changes. *)
Theorem addChildFileReferences_files (newFiles : gmap string FileMeta) (w : WalletRef)
    (s : FolderFileFrame) :
  let s' := (run (folder_handler save) (addChildFileReferences newFiles w) s).1.2 in
  s' = set_fileChildren s (newFiles ∪ fileChildren s)
  /\ forall k, fileChildren s' !! k =
       match newFiles !! k with Some v => Some v | None => fileChildren s !! k end.
Proof.
  unfold addChildFileReferences. run_edit;
  (split; [done|]; intros k; simpl; rewrite lookup_union;
   destruct (newFiles !! k), (fileChildren s !! k); reflexivity).
Qed.

(** [removeChildFileReferences]: whatever the outcome, every listed name is
    gone from the node's file map and every other name keeps its entry;
    nothing else changes. *)
Theorem removeChildFileReferences_files (toRemove : list string) (w : WalletRef)
    (s : FolderFileFrame) :
  let s' := (run (folder_handler save) (removeChildFileReferences toRemove w) s).1.2 in
  dirChildren s' = dirChildren s /\ ident s' = ident s
  /\ forall k, fileChildren s' !! k =
       if decide (k ∈ toRemove) then None else fileChildren s !! k.
Proof.
  unfold removeChildFileReferences. run_edit;
  (split; [done|]; split; [done|]; intros k; apply delete_all_lookup).
Qed.

(** [removeChildDirReferences]: whatever the outcome, the child directory
    list keeps, in order, exactly the names not listed; nothing else
    changes. *)
Theorem removeChildDirReferences_dirs (toRemove : list string) (w : WalletRef)
    (s : FolderFileFrame) :
  let s' := (run (folder_handler save) (removeChildDirReferences toRemove w) s).1.2 in
  dirChildren s' = List.filter (fun saved => negb (includes toRemove saved)) (dirChildren s)
  /\ (forall x, x ∈ dirChildren s' <-> x ∈ dirChildren s /\ x ∉ toRemove)
  /\ fileChildren s' = fileChildren s /\ ident s' = ident s.
Proof.
  assert (Hs : (run (folder_handler save) (removeChildDirReferences toRemove w) s).1.2
    = set_dirChildren s
        (List.filter (fun saved => negb (includes toRemove saved)) (dirChildren s)))
    by (unfold removeChildDirReferences; run_edit; reflexivity).
  cbv zeta. rewrite Hs. simpl. split; [done|]. split; [|done].
  intros x. rewrite (list_elem_of_In (List.filter _ _) x), filter_In,
    <- (list_elem_of_In (dirChildren s) x).
  rewrite negb_true_iff. split.
  - intros [Hx Hr]. split; [done|]. intros Hin. apply includes_spec in Hin. congruence.
  - intros [Hx Hr]. split; [done|].
    destruct (includes toRemove x) eqn:E; [|done]. apply includes_spec in E. done.
Qed.

(** [removeChildDirAndFileReferences] behaves as [removeChildDirReferences]
    followed by [removeChildFileReferences]: same outcome, same final node
    (the change record of the first step apart). *)
Theorem removeChildDirAndFileReferences_compose (dirs files : list string)
    (w : WalletRef) (s : FolderFileFrame) :
  (run (folder_handler save) (removeChildDirAndFileReferences dirs files w) s).1
  = (run (folder_handler save) (removeChildFileReferences files w)
       (run (folder_handler save) (removeChildDirReferences dirs w) s).1.2).1.
Proof.
  assert (Hs : (run (folder_handler save) (removeChildDirReferences dirs w) s).1.2
    = set_dirChildren s
        (List.filter (fun saved => negb (includes dirs saved)) (dirChildren s)))
    by (unfold removeChildDirReferences; run_edit; reflexivity).
  rewrite Hs.
  unfold removeChildDirAndFileReferences, removeChildFileReferences.
  run_edit; reflexivity.
Qed.

(** With a wallet that cannot sign, the four file and directory edits write
    the node first and only then fail with the signer error: the edit stays
    applied and no change record is built. *)
Theorem folder_edits_without_signer (w : WalletRef) (s : @FolderFileFrame FileMeta)
    (newFiles : gmap string FileMeta) (dirs files : list string) :
  wr_traits w = false ->
  let h := folder_handler save in
  let sd := set_dirChildren s
              (List.filter (fun saved => negb (includes dirs saved)) (dirChildren s)) in
  run h (addChildFileReferences newFiles w) s
    = (Raised ErrSignerNotEnabled, set_fileChildren s (newFiles ∪ fileChildren s),
       [FGet; FPut (set_fileChildren s (newFiles ∪ fileChildren s)); FGet])
  /\ run h (removeChildDirReferences dirs w) s
     = (Raised ErrSignerNotEnabled, sd, [FGet; FPut sd; FGet])
  /\ run h (removeChildFileReferences files w) s
     = (Raised ErrSignerNotEnabled, set_fileChildren s (delete_all files (fileChildren s)),
        [FGet; FPut (set_fileChildren s (delete_all files (fileChildren s))); FGet])
  /\ run h (removeChildDirAndFileReferences dirs files w) s
     = (Raised ErrSignerNotEnabled, set_fileChildren sd (delete_all files (fileChildren sd)),
        [FGet; FPut sd; FGet;
         FPut (set_fileChildren sd (delete_all files (fileChildren sd))); FGet]).
Proof.
  intros Hw. unfold addChildFileReferences, removeChildDirReferences,
    removeChildFileReferences, removeChildDirAndFileReferences,
    getForFiletree_this, getForFiletree.
  simpl. rewrite Hw. repeat split.
Qed.

End FolderEdits.

Lemma folder_edits_without_signer_witness :
  wr_traits (mkWalletRef false "jkl1") = false
  /\ run (folder_handler (fun _ _ n _ => inr n))
       (removeChildDirReferences ["old"] (mkWalletRef false "jkl1"))
       (mkFrame (FileMeta := unit) "docs" "/home/alice" "alice" ["old"; "keep"] ∅)
     = (Raised ErrSignerNotEnabled,
        mkFrame "docs" "/home/alice" "alice" ["keep"] ∅,
        [FGet; FPut (mkFrame "docs" "/home/alice" "alice" ["keep"] ∅); FGet]).
Proof.
  split; [reflexivity|].
  exact (proj1 (proj2 (folder_edits_without_signer (EncodeObject := string)
    (fun _ _ n _ => inr n) (mkWalletRef false "jkl1")
    (mkFrame "docs" "/home/alice" "alice" ["old"; "keep"] ∅) ∅ ["old"] [] eq_refl))).
Defined.
(* ------------------------------------------------------------------ *)
(** ** addChildDirs: the node's directory list and the records built *)

Section AddDirs.
Context {FileMeta EncodeObject : Type}.
Variable stripper : string -> string.

Lemma dedup_from_elem (seen l : list string) (x : string) :
  x ∈ dedup_from seen l <-> x ∈ l /\ x ∉ seen.
Proof.
  revert seen. induction l as [|y t IH]; intros seen; simpl.
  - split; [intros H; inversion H|intros [H _]; inversion H].
  - destruct (includes seen y) eqn:E.
    + apply includes_spec in E. rewrite IH, elem_of_cons.
      split; [intuition|]. intros [[->|?] ?]; intuition.
    + rewrite !elem_of_cons, IH.
      assert (Hy : y ∉ seen) by (intros Hy; apply includes_spec in Hy; congruence).
      rewrite elem_of_app, list_elem_of_singleton. split.
      * intros [->|[Hx Hn]].
        -- split; [left; done|done].
        -- split; [right; done|]. intros Hs; apply Hn; left; done.
      * intros [[->|Hx] Hn]; [left; done|].
        destruct (String.eqb_spec x y) as [->|Hne]; [left; done|].
        right. split; [done|]. intros [Hs|Hs]; [done|congruence].
Qed.

Lemma dedup_from_NoDup (seen l : list string) : NoDup (dedup_from seen l).
Proof.
  revert seen. induction l as [|y t IH]; intros seen; simpl; [constructor|].
  destruct (includes seen y); [done|]. constructor; [|done].
  rewrite dedup_from_elem. set_solver.
Qed.

Lemma dedup_from_app (seen l1 l2 : list string) :
  dedup_from seen (l1 ++ l2) = dedup_from seen l1 ++ dedup_from (seen ++ dedup_from seen l1) l2.
Proof.
  revert seen. induction l1 as [|y t IH]; intros seen; simpl.
  - by rewrite app_nil_r.
  - destruct (includes seen y); [done|]. rewrite IH, <- app_assoc. done.
Qed.

Lemma dedup_from_irrelevant (seen1 seen2 l : list string) :
  (forall x, x ∈ l -> (x ∈ seen1 <-> x ∈ seen2)) ->
  dedup_from seen1 l = dedup_from seen2 l.
Proof.
  revert seen1 seen2. induction l as [|y t IH]; intros seen1 seen2 Hs; simpl; [done|].
  assert (E : includes seen1 y = includes seen2 y).
  { destruct (includes seen1 y) eqn:E1, (includes seen2 y) eqn:E2; try done.
    - apply includes_spec in E1. apply (Hs y) in E1; [|set_solver].
      apply includes_spec in E1. congruence.
    - apply includes_spec in E2. apply (Hs y) in E2; [|set_solver].
      apply includes_spec in E2. congruence. }
  rewrite E. destruct (includes seen2 y); [apply IH; set_solver|].
  f_equal. apply IH. intros x Hx. specialize (Hs x). set_solver.
Qed.

Lemma dedup_from_NoDup_id (seen l : list string) :
  NoDup l -> (forall x, x ∈ l -> x ∉ seen) -> dedup_from seen l = l.
Proof.
  revert seen. induction l as [|y t IH]; intros seen Hl Hs; simpl; [done|].
  apply NoDup_cons in Hl as [Hy Ht].
  destruct (includes seen y) eqn:E.
  - apply includes_spec in E. exfalso. apply (Hs y); set_solver.
  - f_equal. apply IH; [done|]. intros x Hx. specialize (Hs x). set_solver.
Qed.

Lemma new_Set_append_fresh (dir more : list string) :
  NoDup dir -> (forall x, x ∈ more -> x ∉ dir) ->
  new_Set (dir ++ more) = dir ++ new_Set more.
Proof.
  intros Hd Hm. unfold new_Set. rewrite dedup_from_app.
  rewrite (dedup_from_NoDup_id [] dir Hd) by set_solver.
  f_equal. apply dedup_from_irrelevant. intros x Hx. specialize (Hm x Hx). set_solver.
Qed.


Variable save : string -> string -> string -> @FolderFileFrame FileMeta -> string + EncodeObject.

Lemma run_mapM_getForFiletree_state (w : WalletRef) (ds : list (@FolderFileFrame FileMeta))
    (s : @FolderFileFrame FileMeta) :
  (run (folder_handler save) (mapM (getForFiletree w) ds) s).1.2 = s.
Proof.
  induction ds as [|d ds IH]; [done|]. cbn [mapM]. unfold mbind, prog_bind.
  rewrite run_pbind. remember (mapM (getForFiletree w) ds) as m eqn:Hm.
  unfold getForFiletree. destruct (wr_traits w); [|done].
  simpl. destruct (save _ _ _ _); [done|]. simpl.
  rewrite run_pbind. destruct (run _ m s) as [[[a|er|] s1] t1];
    simpl in IH |- *; subst; done.
Qed.


Lemma run_addChildDirs (names : list string) (w : WalletRef) (s : @FolderFileFrame FileMeta) :
  let more := List.filter (fun name => negb (includes (dirChildren s) name)) names in
  let existing := List.filter (fun name => includes (dirChildren s) name) names in
  let handlers := map (fun name => trackNewFolder stripper (makeChildDirInfo stripper s name)) more in
  let s' := set_dirChildren s (new_Set (dirChildren s ++ more)) in
  run (folder_handler save) (addChildDirs stripper names w) s =
  match run (folder_handler save) (mapM (getForFiletree w) handlers) s with
  | (Done enc, _, t1) =>
      if (0 <? length more)%nat then
        match run (folder_handler save) (getForFiletree w s') s' with
        | (Done me, s2, t2) =>
            (Done (enc ++ [me], existing), s2, FGet :: t1 ++ FGet :: FPut s' :: FGet :: t2)
        | (Raised e, s2, t2) => (Raised e, s2, FGet :: t1 ++ FGet :: FPut s' :: FGet :: t2)
        | (OutOfModel, s2, t2) => (OutOfModel, s2, FGet :: t1 ++ FGet :: FPut s' :: FGet :: t2)
        end
      else (Done (enc, existing), s, FGet :: t1)
  | (Raised e, s1, t1) => (Raised e, s1, FGet :: t1)
  | (OutOfModel, s1, t1) => (OutOfModel, s1, FGet :: t1)
  end.
Proof.
  intros more existing handlers s'.
  pose proof (run_mapM_getForFiletree_state w handlers s) as Hst.
  unfold addChildDirs. cbn [run pbind mbind prog_bind call].
  change (folder_handler save FGet s) with (inr (A := string) (B := FolderFileFrame) s, s).
  cbn beta iota zeta. fold more existing handlers.
  unfold mbind, prog_bind. rewrite run_pbind.
  destruct (run (folder_handler save) (mapM (getForFiletree w) handlers) s) as [[[enc|er|] s1] t1];
    simpl in Hst; subst s1; cbn beta iota zeta; [|done|done].
  destruct (0 <? length more)%nat; [|cbn; by rewrite app_nil_r].
  subst s'. unfold getForFiletree_this, getForFiletree. destruct (wr_traits w); simpl;
    [destruct (save _ _ _ _); simpl|]; rewrite ?app_nil_r; done.
Qed.


Lemma run_getForFiletree_state (w : WalletRef) (d s : @FolderFileFrame FileMeta) :
  (run (folder_handler save) (getForFiletree w d) s).1.2 = s.
Proof.
  unfold getForFiletree. destruct (wr_traits w); simpl; [|done].
  destruct (save _ _ _ _); done.
Qed.

Lemma filter_not_included_elem (dir names : list string) (x : string) :
  x ∈ List.filter (fun name => negb (includes dir name)) names <-> x ∈ names /\ x ∉ dir.
Proof.
  rewrite (list_elem_of_In (List.filter _ _) x), filter_In, <- (list_elem_of_In names x),
    negb_true_iff.
  split; intros [Hx Hd]; split; try done.
  - intros Hin. apply includes_spec in Hin. congruence.
  - destruct (includes dir x) eqn:E; [|done]. apply includes_spec in E. done.
Qed.

Lemma filter_included_all (dir names : list string) :
  List.filter (fun name => negb (includes dir name)) names = [] ->
  List.filter (fun name => includes dir name) names = names.
Proof.
  induction names as [|y t IH]; [done|]. simpl.
  destruct (includes dir y); simpl; [intros H; f_equal; auto|discriminate].
Qed.


(** With a wallet that cannot sign, [addChildDirs] never changes the node:
    it only reads it.  When every name is already a child it returns no
    record and all the names as [existing]; otherwise the first child's
    [getForFiletree] throws the signer error. *)
Theorem addChildDirs_without_signer (names : list string) (w : WalletRef)
    (s : @FolderFileFrame FileMeta) :
  wr_traits w = false ->
  run (folder_handler save) (addChildDirs stripper names w) s
  = (match List.filter (fun name => negb (includes (dirChildren s) name)) names with
     | [] => Done ([], names)
     | _ :: _ => Raised ErrSignerNotEnabled
     end, s, [FGet]).
Proof.
  intros Hw. rewrite run_addChildDirs. cbv zeta.
  destruct (List.filter (fun name => negb (includes (dirChildren s) name)) names)
    as [|n more] eqn:Hmore.
  - simpl. rewrite (filter_included_all _ _ Hmore). done.
  - cbn [map mapM]. unfold getForFiletree. rewrite Hw. reflexivity.
Qed.

(** When [addChildDirs] succeeds, [existing] is the names already listed,
    the node then lists exactly its old children and the given names, and
    a duplicate-free list stays duplicate-free: the new names are appended
    once each, in first-occurrence order.  The file children are untouched. *)
Theorem addChildDirs_done_dirs (names : list string) (w : WalletRef)
    (s : @FolderFileFrame FileMeta) enc existing s' t :
  run (folder_handler save) (addChildDirs stripper names w) s = (Done (enc, existing), s', t) ->
  existing = List.filter (fun name => includes (dirChildren s) name) names
  /\ (forall x, x ∈ dirChildren s' <-> x ∈ dirChildren s \/ x ∈ names)
  /\ (NoDup (dirChildren s) ->
      dirChildren s' = dirChildren s
        ++ new_Set (List.filter (fun name => negb (includes (dirChildren s) name)) names)
      /\ NoDup (dirChildren s'))
  /\ fileChildren s' = fileChildren s.
Proof.
  rewrite run_addChildDirs. cbv zeta.
  set (more := List.filter (fun name => negb (includes (dirChildren s) name)) names).
  destruct (run _ (mapM _ _) s) as [[[enc1|er|] s1] t1]; [|discriminate|discriminate].
  destruct (0 <? length more)%nat eqn:Hlen.
  - set (sd := set_dirChildren s (new_Set (dirChildren s ++ more))).
    pose proof (run_getForFiletree_state w sd sd) as Hst.
    destruct (run _ (getForFiletree w sd) sd) as [[[me|er|] s2] t2];
      [|discriminate|discriminate].
    simpl in Hst. subst s2. intros H. injection H as <- <- <- <-.
    split; [done|]. split; [|split; [|done]].
    + intros x. unfold sd. simpl. unfold new_Set. rewrite dedup_from_elem, elem_of_app.
      unfold more. rewrite filter_not_included_elem.
      split; [intros [[Hd|[Hn _]] _]; auto|].
      intros Hx. split; [|intros Hn; inversion Hn].
      destruct Hx as [Hx|Hx]; [left; done|]. destruct (decide (x ∈ dirChildren s)); [left; done|right; done].
    + intros Hnd. unfold sd. simpl. split.
      * apply new_Set_append_fresh; [done|]. intros x Hx.
        apply filter_not_included_elem in Hx. apply Hx.
      * apply dedup_from_NoDup.
  - intros H. injection H as <- <- <- <-.
    assert (Hm : more = []) by (destruct more; [done|discriminate]).
    split; [done|]. split; [|split; [|done]].
    + intros x. split; [auto|]. intros [Hx|Hx]; [done|].
      destruct (decide (x ∈ dirChildren s)) as [|Hn]; [done|].
      assert (Hin : x ∈ more) by (apply filter_not_included_elem; auto).
      rewrite Hm in Hin. inversion Hin.
    + intros Hnd. fold more. rewrite Hm. simpl. rewrite app_nil_r. done.
Qed.

End AddDirs.

Section AddDirsSigned.
Context {FileMeta EncodeObject : Type}.
Variable stripper : string -> string.
Variable f : string -> string -> string -> @FolderFileFrame FileMeta -> EncodeObject.

Let save := fun a wh n d => (inr (f a wh n d) : string + EncodeObject).

Lemma run_mapM_getForFiletree_signed (w : WalletRef) (ds : list (@FolderFileFrame FileMeta))
    (s : @FolderFileFrame FileMeta) :
  wr_traits w = true ->
  run (folder_handler save) (mapM (getForFiletree w) ds) s
  = (Done (map (fun d => f (wr_address w) (whereAmI d) (whoAmI d) d) ds), s,
     map (fun d => SaveFileTreeEntry (wr_address w) (whereAmI d) (whoAmI d) d) ds).
Proof.
  intros Hw. induction ds as [|d ds IH]; [done|]. cbn [mapM]. unfold mbind, prog_bind.
  rewrite run_pbind. remember (mapM (getForFiletree w) ds) as m eqn:Hm.
  unfold getForFiletree. rewrite Hw. simpl.
  rewrite run_pbind, IH. cbn. by rewrite app_nil_r.
Qed.

(** With a wallet that can sign and a [saveFileTreeEntry] that accepts
    everything, [addChildDirs] builds one record per new name occurrence
    (the child named by [stripper] applied twice, placed under this node's
    path), then this node's record after appending the new names; with no
    new name it only reads the node. *)
Theorem addChildDirs_signed_records (names : list string) (w : WalletRef)
    (s : @FolderFileFrame FileMeta) :
  wr_traits w = true ->
  let more := List.filter (fun name => negb (includes (dirChildren s) name)) names in
  let existing := List.filter (fun name => includes (dirChildren s) name) names in
  let child n : @FolderFileFrame FileMeta :=
    mkFrame (stripper (stripper n)) (getMyPath s) (whoOwnsMe s) [] ∅ in
  let s' := set_dirChildren s (new_Set (dirChildren s ++ more)) in
  run (folder_handler save) (addChildDirs stripper names w) s
  = match more with
    | [] => (Done ([], existing), s, [FGet])
    | _ :: _ =>
        (Done (map (fun n => f (wr_address w) (getMyPath s) (stripper (stripper n)) (child n)) more
                 ++ [f (wr_address w) (whereAmI s) (whoAmI s) s'], existing),
         s',
         FGet :: map (fun n => SaveFileTreeEntry (wr_address w) (getMyPath s)
                                 (stripper (stripper n)) (child n)) more
              ++ [FGet; FPut s'; FGet; SaveFileTreeEntry (wr_address w) (whereAmI s) (whoAmI s) s'])
    end.
Proof.
  intros Hw more existing child s'.
  rewrite run_addChildDirs. fold more existing s'.
  rewrite run_mapM_getForFiletree_signed by done. rewrite !map_map.
  destruct more as [|n more'] eqn:Hmore; [done|]. simpl.
  unfold getForFiletree. rewrite Hw. simpl. done.
Qed.

End AddDirsSigned.

(* Witnesses for the addChildDirs theorems. *)
Lemma addChildDirs_without_signer_witness :
  wr_traits (mkWalletRef false "jkl1") = false
  /\ run (folder_handler (fun _ _ n _ => inr n))
       (addChildDirs (FileMeta := unit) (fun x => x) ["a"; "b"] (mkWalletRef false "jkl1"))
       (mkFrame "docs" "/home" "alice" ["b"] ∅)
     = (Raised ErrSignerNotEnabled, mkFrame "docs" "/home" "alice" ["b"] ∅, [FGet]).
Proof.
  split; [reflexivity|].
  exact (addChildDirs_without_signer (fun x => x) (fun _ _ n _ => inr n) ["a"; "b"]
           (mkWalletRef false "jkl1") (mkFrame "docs" "/home" "alice" ["b"] ∅) eq_refl).
Defined.

Lemma addChildDirs_done_dirs_witness :
  let s' : @FolderFileFrame unit := mkFrame "docs" "/home" "alice" ["b"; "a"] ∅ in
  let child : @FolderFileFrame unit := mkFrame "a" "/home/docs" "alice" [] ∅ in
  run (folder_handler (fun _ _ n _ => inr n))
    (addChildDirs (fun x => x) ["a"; "b"; "a"] (mkWalletRef true "jkl1"))
    (mkFrame "docs" "/home" "alice" ["b"] ∅)
  = (Done (["a"; "a"; "docs"], ["b"]), s',
     [FGet; SaveFileTreeEntry "jkl1" "/home/docs" "a" child;
      SaveFileTreeEntry "jkl1" "/home/docs" "a" child;
      FGet; FPut s'; FGet; SaveFileTreeEntry "jkl1" "/home" "docs" s'])
  /\ (NoDup ["b"] -> ["b"; "a"] = ["b"] ++ new_Set ["a"; "a"] /\ NoDup ["b"; "a"]).
Proof.
  split; [reflexivity|].
  exact (proj1 (proj2 (proj2 (addChildDirs_done_dirs (FileMeta := unit) (fun x => x) (fun _ _ n _ => inr n)
    ["a"; "b"; "a"] (mkWalletRef true "jkl1") (mkFrame "docs" "/home" "alice" ["b"] ∅)
    _ _ _ _ eq_refl)))).
Defined.

Lemma addChildDirs_signed_records_witness :
  let s' : @FolderFileFrame unit := mkFrame "docs" "/home" "alice" ["b"; "a"] ∅ in
  let child : @FolderFileFrame unit := mkFrame "a" "/home/docs" "alice" [] ∅ in
  wr_traits (mkWalletRef true "jkl1") = true
  /\ run (folder_handler (fun a wh n d => inr (a, wh, n, d)))
       (addChildDirs (fun x => x) ["a"; "b"; "a"] (mkWalletRef true "jkl1"))
       (mkFrame "docs" "/home" "alice" ["b"] ∅)
     = (Done ([("jkl1", "/home/docs", "a", child); ("jkl1", "/home/docs", "a", child);
               ("jkl1", "/home", "docs", s')], ["b"]), s',
        [FGet; SaveFileTreeEntry "jkl1" "/home/docs" "a" child;
         SaveFileTreeEntry "jkl1" "/home/docs" "a" child;
         FGet; FPut s'; FGet; SaveFileTreeEntry "jkl1" "/home" "docs" s']).
Proof.
  split; [reflexivity|].
  exact (addChildDirs_signed_records (fun x => x) (fun a wh n d => (a, wh, n, d))
           ["a"; "b"; "a"] (mkWalletRef true "jkl1") (mkFrame "docs" "/home" "alice" ["b"] ∅)
           eq_refl).
Defined.

(* ------------------------------------------------------------------ *)
(** ** What the encoder's frames hold, and how the decoder reads frames *)

Lemma takeN_dropN {A} (n : N) (l : list A) : takeN n l ++ dropN n l = l.
Proof.
  revert n. induction l as [|x t IH]; intros n; [done|]. simpl.
  destruct (n =? 0); [done|]. simpl. by rewrite IH.
Qed.

Lemma dropN_add {A} (i n : N) (l : list A) : dropN (i + n) l = dropN n (dropN i l).
Proof.
  revert i. induction l as [|x t IH]; intros i; [by destruct n|]. simpl.
  destruct (i =? 0) eqn:Ei; nbool.
  - subst i. simpl. done.
  - destruct (i + n =? 0) eqn:E; nbool; [lia|].
    replace (N.pred (i + n)) with (N.pred i + n) by lia. apply IH.
Qed.

Lemma gcm_decrypt_back (h : crypto_handler) (key : CryptoKey) (iv d c : bytes) :
  aes_gcm_laws h key iv -> d <> [] -> h (SubtleEncrypt iv key d) = inr c ->
  fst (runc h (aesCrypt c key iv (Some "decrypt"%string))) = Done d.
Proof.
  intros Hgcm Hd Hc. destruct (Hgcm d Hd) as (c' & Hc' & Hlen & Hdec).
  rewrite Hc in Hc'. injection Hc' as <-.
  assert (Hne : c <> []) by (intros ->; simpl in Hlen; lia).
  unfold runc, aesCrypt. rewrite byteLength_nonempty_ltb by done. simpl.
  rewrite Hdec. reflexivity.
Qed.

Lemma encode_loop_content (h : crypto_handler) (fuel : nat) (data : bytes)
    (key : CryptoKey) (iv : bytes) (i : N) (rest : list bytes) (s0 s : unit)
    (t : list CryptoCall) :
  aes_gcm_laws h key iv ->
  run (lift_h h) (encode_loop fuel data key iv i) s0 = (Done rest, s, t) ->
  exists chunks,
    Forall2 (fun fr p => fst (runc h (aesCrypt fr.2 key iv (Some "decrypt"%string))) = Done p)
      (frames_of rest) chunks
    /\ mjoin chunks = dropN i data
    /\ Forall (fun c => c <> [] /\ byteLength c <= chunkSize) chunks.
Proof.
  intros Hgcm. revert i rest s0 s t.
  induction fuel as [|f IH]; intros i rest s0 s t H; [discriminate|].
  cbn [encode_loop] in H. destruct (i <? byteLength data) eqn:Hi; nbool.
  - unfold mbind, prog_bind in H.
    assert (Hne : slice data i (i + chunkSize) <> [])
      by (apply slice_nonempty; [done | unfold chunkSize; lia]).
    rewrite aesCrypt_encrypt_nonempty in H by done.
    rewrite (run_call_bind h (SubtleEncrypt iv key (slice data i (i + chunkSize)))) in H.
    destruct (h (SubtleEncrypt iv key (slice data i (i + chunkSize)))) as [m|c] eqn:Hc;
      [discriminate|].
    rewrite run_pbind in H.
    destruct (run (lift_h h) (encode_loop f data key iv (i + chunkSize)) s0)
      as [[[r|e|] s1] t1] eqn:Hr; simpl in H; try discriminate.
    injection H as <- _ _.
    destruct (IH _ _ _ _ _ Hr) as (chunks & Hf & Hj & Hsz).
    exists (slice data i (i + chunkSize) :: chunks). split; [|split].
    + simpl. constructor; [|done]. simpl.
      eapply gcm_decrypt_back; eauto.
    + simpl. rewrite Hj, dropN_add. unfold slice.
      replace (i + chunkSize - i) with chunkSize by lia. apply takeN_dropN.
    + constructor; [|done]. split; [done|].
      unfold slice. replace (i + chunkSize - i) with chunkSize by lia.
      unfold byteLength. clear. generalize (dropN i data). generalize chunkSize.
      intros n l. revert n. induction l as [|x l IHl]; intros n; simpl; [lia|].
      destruct (n =? 0) eqn:E; nbool; simpl; [lia|]. specialize (IHl (N.pred n)). lia.
  - injection H as <- _ _. exists []. split; [constructor|]. split; [|constructor].
    simpl. symmetry. apply dropN_past. unfold byteLength in Hi. lia.
Qed.

(** Under the AES-GCM laws, when [convertToEncryptedFile] succeeds, running
    [aesCrypt] in decrypt mode on the ciphertext of each frame gives back, in
    order, the [JSON.stringify] buffer of the metadata and then the chunks of
    the file, which concatenate to the file's bytes; every chunk is
    non-empty and at most [chunkSize] bytes. *)
Theorem convertToEncryptedFile_content (h : crypto_handler) (f : WorkingFile)
    (key : CryptoKey) (iv : bytes) (out : JsFile) (t : list CryptoCall) :
  aes_gcm_laws h key iv ->
  runc h (convertToEncryptedFile f key iv) = (Done out, t) ->
  exists detailsBuf chunks,
    h (JsonStringify (mkDetails (wf_name f) (wf_lastModified f) (wf_type f)
                        (byteLength (wf_data f)))) = inr detailsBuf
    /\ Forall2 (fun fr p => fst (runc h (aesCrypt fr.2 key iv (Some "decrypt"%string))) = Done p)
         (frames_of (jf_bits out)) (detailsBuf :: chunks)
    /\ mjoin chunks = wf_data f
    /\ Forall (fun c => c <> [] /\ byteLength c <= chunkSize) chunks.
Proof.
  intros Hgcm H.
  destruct (convertToEncryptedFile_done h f key iv out t H)
    as (detailsBuf & c0 & rest & s1 & t1 & Hs & Hc0 & Hr & Hbits).
  destruct (encode_loop_content h _ _ key iv 0 rest tt s1 t1 Hgcm Hr)
    as (chunks & Hf & Hj & Hsz).
  exists detailsBuf, chunks. split; [done|]. split; [|split; [|done]].
  - rewrite Hbits. simpl. constructor; [|done]. simpl.
    destruct Hc0 as [[-> ->]|[Hne Hc]]; [reflexivity|].
    eapply gcm_decrypt_back; eauto.
  - rewrite Hj. by destruct (wf_data f).
Qed.

(* Witness of the encoder theorem. *)
Lemma convertToEncryptedFile_content_witness :
  exists out t,
    runc toy_handler (convertToEncryptedFile (mkWorkingFile "a.txt" 0 "" body_plain) toy_key toy_iv)
    = (Done out, t)
    /\ exists detailsBuf chunks,
         toy_handler (JsonStringify (mkDetails "a.txt" 0 "" (byteLength body_plain)))
           = inr detailsBuf
         /\ Forall2 (fun fr p =>
              fst (runc toy_handler (aesCrypt fr.2 toy_key toy_iv (Some "decrypt"%string)))
              = Done p)
              (frames_of (jf_bits out)) (detailsBuf :: chunks)
         /\ mjoin chunks = body_plain
         /\ Forall (fun c => c <> [] /\ byteLength c <= chunkSize) chunks.
Proof.
  eexists _, _. split; [reflexivity|].
  eapply (convertToEncryptedFile_content toy_handler
           (mkWorkingFile "a.txt" 0 "" body_plain) toy_key toy_iv);
    [apply toy_aes_gcm_laws | reflexivity].
Defined.

Lemma aesCrypt_decrypt_accepted (h : crypto_handler) (key : CryptoKey) (iv seg : bytes)
    (s : unit) :
  (seg = [] \/ exists p, h (SubtleDecrypt iv key seg) = inr p) ->
  exists p t, run (lift_h h) (aesCrypt seg key iv (Some "decrypt"%string)) s = (Done p, s, t).
Proof.
  intros [->|[p Hp]]; [by eexists _, _|].
  unfold aesCrypt. destruct (byteLength seg <? 1); [by eexists _, _|]. simpl.
  rewrite Hp. by eexists _, _.
Qed.

Lemma header_length_ge (n : N) : (8 <= List.length (header n))%nat.
Proof. unfold header, padStart. rewrite length_app, repeat_length. lia. Qed.

Lemma envelope_length (cts : list bytes) : (8 * List.length cts <= List.length (envelope cts))%nat.
Proof.
  induction cts as [|ct cts IH]; [simpl; lia|].
  unfold envelope in *. simpl. rewrite !length_app.
  pose proof (header_length_ge (byteLength ct)). lia.
Qed.

Lemma envelope_cons (ct : bytes) (cts : list bytes) :
  envelope (ct :: cts) = header (byteLength ct) ++ ct ++ envelope cts.
Proof. unfold envelope. simpl. by rewrite <- app_assoc. Qed.

(** The turns of the walk after the first one, on frames with exact
    8-digit headers: one turn per frame, each pushing the frame's
    ciphertext, then the turn that ends the walk. *)
Lemma walk_envelope (h : crypto_handler) (key : CryptoKey) (iv : bytes)
    (cts : list bytes) (pre det : bytes) (parts : list bytes) :
  pre <> [] ->
  Forall (fun ct => byteLength ct < 10 ^ 8) cts ->
  Forall (fun ct => ct = [] \/ exists p, h (SubtleDecrypt iv key ct) = inr p) cts ->
  byteLength (pre ++ envelope cts) < 2 ^ 53 ->
  exists t,
    run (lift_h h)
      (loop_n (S (List.length cts)) (decode_step (pre ++ envelope cts) key iv)
         (num_of_N (byteLength pre), det, parts)) tt
    = (Done (inr (det, parts ++ cts)), tt, t).
Proof.
  revert pre parts. induction cts as [|ct cts IH]; intros pre parts Hpre Hsz Hdec Hb.
  - change (envelope []) with (@nil byte). rewrite app_nil_r in *.
    rewrite run_loop_n_S, decode_step_end by lia. cbn. rewrite app_nil_r. by eexists.
  - apply Forall_cons in Hsz as [Hct Hsz]. apply Forall_cons in Hdec as [Hd Hdec].
    destruct (header_Number (byteLength ct) Hct) as [Hlen Hnum].
    rewrite envelope_cons in *. set (hd := header (byteLength ct)) in *.
    set (source := pre ++ hd ++ ct ++ envelope cts) in *.
    assert (HL : byteLength source
                 = byteLength pre + 8 + byteLength ct + byteLength (envelope cts))
      by (unfold source, byteLength; rewrite !length_app, Hlen; lia).
    assert (Hhdr : slice source (byteLength pre) (byteLength pre + 8) = hd).
    { unfold slice, source. replace (byteLength pre + 8 - byteLength pre) with 8 by lia.
      unfold byteLength at 1. rewrite dropN_app_length.
      replace 8 with (N.of_nat (List.length hd)) by (rewrite Hlen; lia).
      apply takeN_app_length. }
    cbn [List.length]. rewrite run_loop_n_S.
    rewrite (decode_step_int source key iv (byteLength pre) (Z.of_N (byteLength ct)));
      [| lia | lia | lia | by rewrite Hhdr].
    replace (Z.to_N (Z.of_N (byteLength pre) + 8 + Z.of_N (byteLength ct)))
      with (byteLength ((pre ++ hd) ++ ct))
      by (unfold byteLength; rewrite !length_app, Hlen; lia).
    assert (Hseg : slice source (byteLength pre + 8) (byteLength ((pre ++ hd) ++ ct)) = ct).
    { unfold slice.
      replace (byteLength ((pre ++ hd) ++ ct) - (byteLength pre + 8)) with (byteLength ct)
        by (unfold byteLength; rewrite !length_app, Hlen; lia).
      replace (byteLength pre + 8) with (byteLength (pre ++ hd))
        by (unfold byteLength; rewrite length_app, Hlen; lia).
      unfold source. rewrite app_assoc. unfold byteLength. rewrite dropN_app_length.
      apply takeN_app_length. }
    rewrite Hseg.
    replace (byteLength pre =? 0) with false
      by (symmetry; apply N.eqb_neq; unfold byteLength; destruct pre; [done|simpl; lia]).
    unfold mbind, prog_bind. rewrite run_pbind.
    destruct (aesCrypt_decrypt_accepted h key iv ct tt Hd) as (p & t1 & Hp). rewrite Hp.
    cbn [run mret prog_ret].
    replace source with (((pre ++ hd) ++ ct) ++ envelope cts)
      by (unfold source; by rewrite <- !app_assoc).
    destruct (IH ((pre ++ hd) ++ ct) (parts ++ [ct])) as (t2 & Ht2).
    + by destruct pre.
    + done.
    + done.
    + unfold byteLength in *. rewrite !length_app in *. lia.
    + rewrite Ht2, <- app_assoc. cbn. by eexists.
Qed.

(** On an input framed with exact 8-digit length headers and shorter than
    [2 ^ 53] bytes, [convertFromEncryptedFile] reaches [JSON.parse] as soon
    as the decryption calls it awaits are accepted: [JSON.parse] reads the
    first segment as it stands in the input; a [null] result throws the
    TypeError of reading its [name]; otherwise the [File] constructor gets
    the remaining segments as they stand in the input (not their
    decryptions), the parsed value's [name] (for an object) and the parsed
    value as options. *)
Theorem convertFromEncryptedFile_envelope (h : crypto_handler) (key : CryptoKey) (iv : bytes)
    (ct0 : bytes) (cts : list bytes) :
  Forall (fun ct => byteLength ct < 10 ^ 8) (ct0 :: cts) ->
  byteLength (envelope (ct0 :: cts)) < 2 ^ 53 ->
  Forall (fun ct => ct = [] \/ exists p, h (SubtleDecrypt iv key ct) = inr p) (ct0 :: cts) ->
  fst (runc h (convertFromEncryptedFile (envelope (ct0 :: cts)) key iv))
  = match h (JsonParse ct0) with
    | inl msg => Raised (ErrRejected msg)
    | inr JNull => Raised null_name_error
    | inr details =>
        match h (NewFile cts (match details with
                              | JObject ms => member_lookup name_key ms
                              | _ => None
                              end) details) with
        | inl msg => Raised (ErrRejected msg)
        | inr f => Done f
        end
    end.
Proof.
  intros Hsz Hb Hdec.
  apply Forall_cons in Hsz as [Hct Hsz]. apply Forall_cons in Hdec as [Hd Hdec].
  destruct (header_Number (byteLength ct0) Hct) as [Hlen Hnum].
  rewrite envelope_cons in *. set (hd := header (byteLength ct0)) in *.
  set (source := hd ++ ct0 ++ envelope cts) in *.
  assert (Hloop : exists t,
    run (lift_h h) (loop_n (S (S (List.length cts))) (decode_step source key iv)
                      (num_of_N 0, [], [])) tt
    = (Done (inr (ct0, cts)), tt, t)).
  { assert (Hhdr : slice source 0 (0 + 8) = hd).
    { unfold slice, source. replace (0 + 8 - 0) with 8 by lia.
      rewrite dropN_zero.
      replace 8 with (N.of_nat (List.length hd)) by (rewrite Hlen; lia).
      apply takeN_app_length. }
    assert (HL : byteLength source = 8 + byteLength ct0 + byteLength (envelope cts))
      by (unfold source, byteLength; rewrite !length_app, Hlen; lia).
    rewrite run_loop_n_S.
    rewrite (decode_step_int source key iv 0 (Z.of_N (byteLength ct0)));
      [| lia | lia | lia | by rewrite Hhdr].
    replace (Z.to_N (Z.of_N 0 + 8 + Z.of_N (byteLength ct0))) with (byteLength (hd ++ ct0))
      by (unfold byteLength; rewrite !length_app, Hlen; lia).
    assert (Hseg : slice source (0 + 8) (byteLength (hd ++ ct0)) = ct0).
    { unfold slice.
      replace (byteLength (hd ++ ct0) - (0 + 8)) with (byteLength ct0)
        by (unfold byteLength; rewrite !length_app, Hlen; lia).
      replace (0 + 8) with (byteLength hd) by (unfold byteLength; rewrite Hlen; lia).
      unfold source. unfold byteLength. rewrite dropN_app_length.
      apply takeN_app_length. }
    rewrite Hseg. cbn [N.eqb].
    unfold mbind, prog_bind. rewrite run_pbind.
    destruct (aesCrypt_decrypt_accepted h key iv ct0 tt Hd) as (p & t1 & Hp). rewrite Hp.
    cbn [run mret prog_ret].
    replace source with ((hd ++ ct0) ++ envelope cts) by (unfold source; by rewrite app_assoc).
    destruct (walk_envelope h key iv cts (hd ++ ct0) ct0 []) as (t2 & Ht2).
    - intros E. apply (f_equal (@List.length byte)) in E. rewrite length_app, Hlen in E.
      simpl in E. lia.
    - done.
    - done.
    - rewrite <- app_assoc. exact Hb.
    - rewrite Ht2. cbn. by eexists. }
  destruct Hloop as (t & Ht).
  apply (loop_at_most_walk_bound (lift_h h)) in Ht.
  2: { pose proof (envelope_length cts). unfold byteLength, source in Hb.
       rewrite !length_app in Hb. lia. }
  unfold runc, convertFromEncryptedFile, mbind, prog_bind. rewrite run_pbind, Ht.
  cbn [pbind run call]. change (lift_h h (JsonParse ct0) tt) with (h (JsonParse ct0), tt).
  destruct (h (JsonParse ct0)) as [msg|v]; [reflexivity|].
  destruct v; [reflexivity|..]; cbn [get_name pbind run call mret prog_ret];
    match goal with
    | |- context [lift_h _ ?c _] =>
        change (lift_h h c tt) with (h c, tt); destruct (h c)
    end; reflexivity.
Qed.

(* Witness of the decoder theorem. *)
Lemma convertFromEncryptedFile_envelope_witness :
  fst (runc toy_handler
         (convertFromEncryptedFile (envelope [meta_plain ++ toy_tag; body_plain ++ toy_tag])
            toy_key toy_iv))
  = Done (mkJsFile [body_plain ++ toy_tag]
            (String.string_of_list_byte (meta_plain ++ toy_tag)) "" None).
Proof.
  etransitivity.
  - apply (convertFromEncryptedFile_envelope toy_handler toy_key toy_iv).
    + repeat constructor.
    + vm_compute. reflexivity.
    + repeat (constructor; [right; eexists; reflexivity|]). constructor.
  - vm_compute. reflexivity.
Defined.
